(** * 2048 with a tabular Q-learning agent: board engine and agent

    A shallow embedding of [game.py] (classes [Game] and [GameState]) and
    of [agents.py] (classes [GameStateFeatures] and [QLearnAgent]).

    Conventions of the embedding:
    - a Python [int] is a [Z]; a board is a [list (list Z)];
    - a Python exception ([IndexError], [ValueError]) is the result [None];
    - methods that read and write [self] take the object and return the
      updated object next to their result;
    - the floats of the agent are idealised as exact numbers on [Q], with
      equations between values stated up to [Qeq]; [computeReward_float]
      writes the binary64 arithmetic of [computeReward] out, and the two
      agree while no sum is rounded;
    - calls to the [random] module take their outcome as an argument. *)

From Stdlib Require Import ZArith QArith Lia Lqa.
From stdpp Require Import base option list numbers strings.

Local Open Scope nat_scope.

(** ** Python control flow *)

(** [for i in is: st = body(st, i)], where the body may raise. *)
Fixpoint for_each {S I : Type} (body : S → I → option S) (st : S) (idxs : list I)
  : option S :=
  match idxs with
  | [] => Some st
  | i :: idxs' => st' ← body st i; for_each body st' idxs'
  end.

(** [range(n)] *)
Definition range (n : nat) : list nat := seq 0 n.

(** ** Rows: [compress] and [merge] (game.py 29-40 and 173-184) *)

(** [[num for num in row if num != 0]] *)
Definition compress (row : list Z) : list Z :=
  filter (λ num : Z, num ≠ 0%Z) row.

(** One iteration of the loop of [merge] at index [i], on the row and the
    running score. *)
Definition merge_at (update_score : bool) (st : list Z * Z) (i : nat)
  : option (list Z * Z) :=
  let '(row, score) := st in
  x ← row !! i;
  y ← row !! (i + 1);
  if bool_decide (x = y)
  then Some (<[i + 1 := 0%Z]> (<[i := (x * 2)%Z]> row),
             if update_score then (score + x * 2)%Z else score)
  else Some (row, score).

(** [merge(row, update_score)]: returns the row and the new [self.score]. *)
Definition merge (update_score : bool) (row : list Z) (score : Z)
  : option (list Z * Z) :=
  for_each (merge_at update_score) (row, score) (range (length row - 1)).

(** The indices at which the loop of [merge] finds [row[i] == row[i + 1]],
    in the order of the iterations. *)
Fixpoint merge_trace (row : list Z) (idxs : list nat) : list nat :=
  match idxs with
  | [] => []
  | i :: idxs' =>
      match merge_at false (row, 0%Z) i with
      | Some (row', _) =>
          (if bool_decide (row !! i = row !! (i + 1)) then [i] else [])
            ++ merge_trace row' idxs'
      | None => []
      end
  end.

Definition merge_events (row : list Z) : list nat :=
  merge_trace row (range (length row - 1)).

(** How many of the merges of [events] read or write cell [k]: the merge at
    [i] involves the cells [i] and [i + 1]. *)
Definition participations (events : list nat) (k : nat) : nat :=
  length (filter (λ i, k = i ∨ k = i + 1) events).

(** ** Functional characterisation of [merge] *)

(** The row left by the loop when it stands at a cell of value [x] followed
    by the cells [rest]. *)
Fixpoint merge_from (x : Z) (rest : list Z) : list Z :=
  match rest with
  | [] => [x]
  | y :: rest' =>
      if bool_decide (x = y) then (x * 2)%Z :: merge_from 0%Z rest'
      else x :: merge_from y rest'
  end.

Definition merge_rec (row : list Z) : list Z :=
  match row with
  | [] => []
  | x :: rest => merge_from x rest
  end.

(** The score added by the loop from the same position. *)
Fixpoint gain_from (x : Z) (rest : list Z) : Z :=
  match rest with
  | [] => 0%Z
  | y :: rest' =>
      if bool_decide (x = y) then (x * 2 + gain_from 0%Z rest')%Z
      else gain_from y rest'
  end.

Definition merge_gain (row : list Z) : Z :=
  match row with
  | [] => 0%Z
  | x :: rest => gain_from x rest
  end.

(** ** Boards: rotation (game.py 106-108 and 220-222) *)

(** The number of tuples that [zip( *rows )] yields: none without rows, else
    the length of the shortest row. *)
Definition zip_length (rows : list (list Z)) : nat :=
  match rows with
  | [] => 0
  | r :: rs => foldr (λ r' n, Nat.min (length r') n) (length r) rs
  end.

(** [[list(row) for row in zip( *rows )]]: tuple [j] collects cell [j] of every
    row ([j] is below the length of every row, the default is never used). *)
Definition zip_star (rows : list (list Z)) : list (list Z) :=
  (λ j, (λ r, nth j r 0%Z) <$> rows) <$> range (zip_length rows).

(** [rotate_board(board)]: [[list(row) for row in zip( *reversed(board) )]] *)
Definition rotate_board (board : list (list Z)) : list (list Z) :=
  zip_star (reverse board).

(** ** The fields the move methods read and write

    [Game] and [GameState] carry the same attributes [board], [score] and
    [dim] and word-for-word the same methods [compress], [merge],
    [move_left], [move_right], [move_up], [move_down], [rotate_board] and
    [simulate_move]; they are embedded once, over these attributes. *)
Record BoardState := mkBoardState {
  board : list (list Z);
  score : Z;
  dim : nat
}.

Definition set_board (b : list (list Z)) (self : BoardState) : BoardState :=
  {| board := b; score := score self; dim := dim self |}.

(** The body of the loop of [move_left] for row [i]. *)
Definition move_left_row (update_score : bool) (st : bool * BoardState)
    (i : nat) : option (bool * BoardState) :=
  let '(moved, self) := st in
  original_row ← board self !! i;
  let compressed_row := compress original_row in
  '(merged_row, score') ← merge update_score compressed_row (score self);
  let merged_and_compressed_row := compress merged_row in
  let new_row :=
    merged_and_compressed_row
      ++ replicate (dim self - length merged_and_compressed_row) 0%Z in
  let self' :=
    {| board := <[i := new_row]> (board self);
       score := score';
       dim := dim self |} in
  Some (if bool_decide (original_row ≠ new_row) then true else moved, self').

Definition move_left (update_score : bool) (self : BoardState)
  : option (bool * BoardState) :=
  for_each (move_left_row update_score) (false, self) (range (dim self)).

Definition move_down (update_score : bool) (self : BoardState)
  : option (bool * BoardState) :=
  let self := set_board (rotate_board (board self)) self in
  '(moved, self) ← move_left update_score self;
  let self := set_board (Nat.iter 3 rotate_board (board self)) self in
  Some (moved, self).

Definition move_up (update_score : bool) (self : BoardState)
  : option (bool * BoardState) :=
  let self := set_board (Nat.iter 3 rotate_board (board self)) self in
  '(moved, self) ← move_left update_score self;
  let self := set_board (rotate_board (board self)) self in
  Some (moved, self).

Definition move_right (update_score : bool) (self : BoardState)
  : option (bool * BoardState) :=
  let self := set_board (rotate_board (board self)) self in
  let self := set_board (rotate_board (board self)) self in
  '(moved, self) ← move_left update_score self;
  let self := set_board (rotate_board (board self)) self in
  let self := set_board (rotate_board (board self)) self in
  Some (moved, self).

(** The four actions, the strings ['left'], ['right'], ['up'], ['down']. *)
Inductive Move := MoveLeft | MoveRight | MoveUp | MoveDown.

Global Instance Move_eq_dec : EqDecision Move.
Proof. solve_decision. Defined.

(** [getattr(self, f'move_{direction}')] *)
Definition move_method (direction : Move)
  : bool → BoardState → option (bool * BoardState) :=
  match direction with
  | MoveLeft => move_left
  | MoveRight => move_right
  | MoveUp => move_up
  | MoveDown => move_down
  end.

(** [simulate_move(move_func)] *)
Definition simulate_move
    (move_func : bool → BoardState → option (bool * BoardState))
    (self : BoardState) : option (bool * BoardState) :=
  let original_board := board self in
  '(_, self) ← move_func false self;
  let changed := bool_decide (board self ≠ original_board) in
  Some (changed, set_board original_board self).

(** The loop of [move_possible] over the move functions still to try. *)
Fixpoint move_possible_loop (original_board : list (list Z))
    (move_funcs : list (bool → BoardState → option (bool * BoardState)))
    (self : BoardState) : option (bool * BoardState) :=
  match move_funcs with
  | [] => Some (false, set_board original_board self)
  | move_func :: rest =>
      let self := set_board original_board self in
      '(changed, self) ← simulate_move move_func self;
      if changed : bool then Some (true, set_board original_board self)
      else move_possible_loop original_board rest self
  end.

(** [Game.move_possible()] *)
Definition move_possible (self : BoardState) : option (bool * BoardState) :=
  let original_board := board self in
  move_possible_loop original_board
    [move_left; move_right; move_up; move_down] self.

(** [Game.check_game_over()] *)
Definition check_game_over (self : BoardState) : option (bool * BoardState) :=
  '(possible, self) ← move_possible self;
  Some (negb possible, self).

(** The body of the loop of [GameState.valid_moves] for one direction. *)
Definition valid_moves_step (st : list Move * BoardState) (direction : Move)
  : option (list Move * BoardState) :=
  let '(moves, self) := st in
  let original_board := board self in
  '(moved, self) ← move_method direction false self;
  let moves := if moved : bool then moves ++ [direction] else moves in
  Some (moves, set_board original_board self).

(** [GameState.valid_moves()] *)
Definition valid_moves (self : BoardState) : option (list Move * BoardState) :=
  for_each valid_moves_step ([], self) [MoveLeft; MoveRight; MoveUp; MoveDown].

(** ** The [random] module

    One record holds the outcomes of the calls to [random] made during one
    turn of a game. *)
Record Random := mkRandom {
  random_bits : N;     (* the 53 random bits behind [random.random()] *)
  choice_index : nat;  (* the index drawn by [random.choice] in [get_move] *)
  tile_index : nat;    (* the index drawn by [random.choice] in [add_new_tile] *)
  tile_weight : nat    (* the point of 0..99 drawn by [random.choices] *)
}.

(** [random.random()]: a multiple of 2^-53 in the interval [0, 1). *)
Definition random_random (rnd : Random) : Q :=
  Qmake (Z.of_N (random_bits rnd mod 2 ^ 53)) (2 ^ 53).

(** [random.choice(seq)]: [IndexError] on an empty sequence. *)
Definition random_choice {A : Type} (index : nat) (seq : list A) : option A :=
  seq !! (index mod length seq).

(** [random.choices([2, 4], weights=(90, 10), k=1)[0]] *)
Definition random_tile (rnd : Random) : Z :=
  if decide (tile_weight rnd mod 100 < 90) then 2%Z else 4%Z.

(** ** Tile spawning and the win test (game.py 17-21, 77-79) *)

(** [[(r, c) for r in range(dim) for c in range(dim) if board[r][c] == 0]] *)
Definition empty_cells (self : BoardState) : option (list (nat * nat)) :=
  for_each
    (λ cells rc,
       row ← board self !! rc.1;
       cell ← row !! rc.2;
       Some (if bool_decide (cell = 0%Z) then cells ++ [rc] else cells))
    [] (list_prod (range (dim self)) (range (dim self))).

(** [add_new_tile()] *)
Definition add_new_tile (rnd : Random) (self : BoardState)
  : option BoardState :=
  cells ← empty_cells self;
  match cells with
  | [] => Some self
  | _ =>
      rc ← random_choice (tile_index rnd) cells;
      row ← board self !! rc.1;
      Some (set_board (<[rc.1 := <[rc.2 := random_tile rnd]> row]> (board self))
                      self)
  end.

(** [initialize_game()] *)
Definition initialize_game (rnd1 rnd2 : Random) (self : BoardState)
  : option BoardState :=
  self ← add_new_tile rnd1 self;
  add_new_tile rnd2 self.

(** [Game(dim, goal, agent)]: the attributes [board], [score] and [dim] that
    [__init__] leaves. *)
Definition Game_init (d : nat) (rnd1 rnd2 : Random) : option BoardState :=
  initialize_game rnd1 rnd2
    {| board := replicate d (replicate d 0%Z); score := 0; dim := d |}.

(** [reset_game()] *)
Definition reset_game (rnd1 rnd2 : Random) (self : BoardState)
  : option BoardState :=
  initialize_game rnd1 rnd2
    {| board := replicate (dim self) (replicate (dim self) 0%Z);
       score := 0; dim := dim self |}.

(** [check_win()]: [any(any(x >= goal for x in row) for row in board)] *)
Definition check_win (goal : Z) (self : BoardState) : bool :=
  existsb (λ row, existsb (λ x, bool_decide (goal ≤ x)%Z) row) (board self).

(** ** Snapshots: class [GameState] (game.py 158-244)

    [GameState] defines neither [__eq__] nor [__hash__]: two snapshots are
    [==] when they are the same object, and the hash of a snapshot is
    derived from its address. [oid] is that address. *)
Record GameState := mkGameState {
  oid : nat;
  fields : BoardState
}.

(** [GameState(board, score, dim)]: a new object, allocated at [new_id],
    holding a copy of the rows of [board]. *)
Definition GameState_init (new_id : nat) (b : list (list Z)) (sc : Z)
    (d : nat) : GameState :=
  {| oid := new_id; fields := {| board := b; score := sc; dim := d |} |}.

Definition get_score (self : GameState) : Z := score (fields self).

(** [object.__eq__] and [object.__hash__], inherited by [GameState]; the
    hash, a function of the address alone, is taken to be the address. *)
Definition GameState_eq (self other : GameState) : bool :=
  bool_decide (oid self = oid other).

Definition GameState_hash (self : GameState) : Z := Z.of_nat (oid self).

(** [valid_moves()] as a method of the snapshot object. *)
Definition GameState_valid_moves (self : GameState)
  : option (list Move * GameState) :=
  '(moves, f) ← valid_moves (fields self);
  Some (moves, {| oid := oid self; fields := f |}).

(** ** Class [GameStateFeatures] (agents.py 9-36) *)
Record GameStateFeatures := mkFeatures { state : GameState }.

(** [__eq__]: [self.state == other.state] *)
Definition features_eq (self other : GameStateFeatures) : bool :=
  GameState_eq (state self) (state other).

(** [__hash__]: [hash(self.state)] *)
Definition features_hash (self : GameStateFeatures) : Z :=
  GameState_hash (state self).

(** [max(xs)] on integers: [ValueError] on an empty sequence. *)
Definition py_max (xs : list Z) : option Z :=
  match xs with
  | [] => None
  | x :: xs' => Some (foldl Z.max x xs')
  end.

(** [largest_in_corner()] *)
Definition largest_in_corner (self : GameStateFeatures) : option bool :=
  let b := board (fields (state self)) in
  row_maxima ← mapM py_max b;
  max_tile ← py_max row_maxima;
  row0 ← b !! 0;
  corner ← row0 !! 0;
  Some (bool_decide (max_tile = corner)).

(** ** Console output *)

(** A call to [print]: the board ([print_board]) or a line given by its
    template and the integers substituted into it. *)
Inductive Output :=
  | PrintBoard (b : list (list Z))
  | PrintLine (template : string) (args : list Z).

(** ** Class [QLearnAgent] (agents.py 66-332) *)

(** The table [qTable]: a [dict] from [(state, action)] to
    [(value, visit count)], as the list of its items in insertion order.
    Two keys are the same when their components are [==]. *)
Definition Key : Type := GameStateFeatures * Move.
Definition QTable : Type := list (Key * (Q * nat)).

Definition key_eq (k1 k2 : Key) : bool :=
  features_eq k1.1 k2.1 && bool_decide (k1.2 = k2.2).

(** [d.get(k)] *)
Fixpoint dict_get (d : QTable) (k : Key) : option (Q * nat) :=
  match d with
  | [] => None
  | (k', v) :: d' => if key_eq k' k then Some v else dict_get d' k
  end.

(** [d[k] = v]: an existing key keeps its place, a new one goes last. *)
Fixpoint dict_set (d : QTable) (k : Key) (v : Q * nat) : QTable :=
  match d with
  | [] => [(k, v)]
  | (k', v') :: d' =>
      if key_eq k' k then (k', v) :: d' else (k', v') :: dict_set d' k v
  end.

Record QLearnAgent := mkQLearnAgent {
  alpha : Q;
  epsilon : Q;
  gamma : Q;
  maxAttempts : Z;
  numTraining : Z;
  episodesSoFar : Z;
  qTable : QTable;
  previousState : list GameState;
  previousAction : list Move
}.

(** [QLearnAgent(alpha, epsilon, gamma, maxAttempts, numTraining)] *)
Definition QLearnAgent_init (alpha epsilon gamma : Q)
    (maxAttempts numTraining : Z) : QLearnAgent :=
  mkQLearnAgent alpha epsilon gamma maxAttempts numTraining 0%Z [] [] [].

Definition set_qTable (t : QTable) (self : QLearnAgent) : QLearnAgent :=
  mkQLearnAgent (alpha self) (epsilon self) (gamma self) (maxAttempts self)
    (numTraining self) (episodesSoFar self) t (previousState self)
    (previousAction self).

Definition incrementEpisodesSoFar (self : QLearnAgent) : QLearnAgent :=
  mkQLearnAgent (alpha self) (epsilon self) (gamma self) (maxAttempts self)
    (numTraining self) (episodesSoFar self + 1)%Z (qTable self)
    (previousState self) (previousAction self).

Definition setEpsilon (value : Q) (self : QLearnAgent) : QLearnAgent :=
  mkQLearnAgent (alpha self) value (gamma self) (maxAttempts self)
    (numTraining self) (episodesSoFar self) (qTable self)
    (previousState self) (previousAction self).

Definition setAlpha (value : Q) (self : QLearnAgent) : QLearnAgent :=
  mkQLearnAgent value (epsilon self) (gamma self) (maxAttempts self)
    (numTraining self) (episodesSoFar self) (qTable self)
    (previousState self) (previousAction self).

(** [previousState.append(s); previousAction.append(a)] *)
Definition push_previous (s : GameState) (a : Move) (self : QLearnAgent)
  : QLearnAgent :=
  mkQLearnAgent (alpha self) (epsilon self) (gamma self) (maxAttempts self)
    (numTraining self) (episodesSoFar self) (qTable self)
    (previousState self ++ [s]) (previousAction self ++ [a]).

(** [previousState.clear(); previousAction.clear()] *)
Definition clear_previous (self : QLearnAgent) : QLearnAgent :=
  mkQLearnAgent (alpha self) (epsilon self) (gamma self) (maxAttempts self)
    (numTraining self) (episodesSoFar self) (qTable self) [] [].

(** [sum(1 for row in board for cell in row if cell == 0)] *)
Definition count_empty (b : list (list Z)) : nat :=
  length (filter (λ cell : Z, cell = 0%Z) (concat b)).

(** [computeReward(startState, endState)] *)
Definition computeReward (startState endState : GameState) : option Q :=
  let score_increase := (get_score endState - get_score startState)%Z in
  let empty_tiles := count_empty (board (fields endState)) in
  in_corner ← largest_in_corner (mkFeatures endState);
  let corner_bonus :=
    if in_corner : bool
    then (inject_Z (get_score startState) + (1 # 2) * inject_Z score_increase)%Q
    else 0%Q in
  Some (inject_Z score_increase + corner_bonus
        + inject_Z (Z.of_nat empty_tiles * 10))%Q.

(** ** [computeReward] with its float arithmetic written out

    With the corner bonus the reward is a Python float: [0.5 * score_increase]
    and the sums with it convert their [int] operand to binary64 and round
    their result to binary64. Without the bonus the reward is an [int].
    Every number that arises is an integer or half an integer, so a finite
    float is given by [h], twice its value; the two zeros are not told
    apart. *)

Inductive Float64 :=
  | Finite (h : Z)
  | Infinity (negative : bool)
  | NaN.

(** Rounding of the number [h / 2] to the 53 bits of a binary64 significand,
    ties to even; the result is again twice the value. *)
Definition round53 (h : Z) : Z :=
  let a := Z.abs h in
  if (a <? 2 ^ 53)%Z then h
  else
    let s := (Z.log2 a - 52)%Z in
    let q := (a / 2 ^ s)%Z in
    let r := (a mod 2 ^ s)%Z in
    let half := (2 ^ (s - 1))%Z in
    let m := if (r <? half)%Z then q
             else if (half <? r)%Z then (q + 1)%Z
             else if Z.even q then q else (q + 1)%Z in
    (Z.sgn h * (m * 2 ^ s))%Z.

(** Twice [2 ** 1024], the first magnitude that is no finite binary64. *)
Definition float_limit : Z := 2 ^ 1025.

(** The float of the exact result [h / 2] of an operation on floats. *)
Definition float_round (h : Z) : Float64 :=
  let h' := round53 h in
  if (Z.abs h' <? float_limit)%Z then Finite h' else Infinity (h' <? 0)%Z.

(** The conversion of an [int] operand of [+] or [*] whose other operand is
    a float: [OverflowError] when the rounded value is no finite float. *)
Definition int_to_float (z : Z) : option Float64 :=
  match float_round (2 * z) with
  | Finite h => Some (Finite h)
  | _ => None
  end.

(** [x + y] on floats *)
Definition float_add (x y : Float64) : Float64 :=
  match x, y with
  | Finite a, Finite b => float_round (a + b)
  | NaN, _ | _, NaN => NaN
  | Infinity s, Finite _ | Finite _, Infinity s => Infinity s
  | Infinity s, Infinity t => if Bool.eqb s t then Infinity s else NaN
  end.

(** [0.5 * x] for a float [x] converted from an [int]: its [h] is even and
    halving it is exact. *)
Definition float_half (x : Float64) : Float64 :=
  match x with
  | Finite h => Finite (h / 2)
  | _ => x
  end.

(** The result of [computeReward]: an [int] or a float. *)
Inductive PyNumber :=
  | PyInt (z : Z)
  | PyFloat (x : Float64).

(** [computeReward(startState, endState)], in the arithmetic of Python:
    [score_increase] is converted for [0.5 * score_increase] and again, to
    the same float, for [score_increase + corner_bonus]. *)
Definition computeReward_float (startState endState : GameState)
  : option PyNumber :=
  let score_increase := (get_score endState - get_score startState)%Z in
  let empty_tiles := count_empty (board (fields endState)) in
  in_corner ← largest_in_corner (mkFeatures endState);
  if in_corner : bool
  then
    increase ← int_to_float score_increase;
    start ← int_to_float (get_score startState);
    let corner_bonus := float_add start (float_half increase) in
    tiles ← int_to_float (Z.of_nat empty_tiles * 10);
    Some (PyFloat (float_add (float_add increase corner_bonus) tiles))
  else
    Some (PyInt (score_increase + 0 + Z.of_nat empty_tiles * 10)).

(** The rational number that a finite result is. *)
Definition number_value (n : PyNumber) : option Q :=
  match n with
  | PyInt z => Some (inject_Z z)
  | PyFloat (Finite h) => Some (h # 2)
  | PyFloat _ => None
  end.

(** [getQValue(state, action)] *)
Definition getQValue (self : QLearnAgent) (state : GameStateFeatures)
    (action : Move) : Q :=
  (default (0%Q, 0) (dict_get (qTable self) (state, action))).1.

(** [max(xs)] on numbers: the first of the largest elements. *)
Definition py_max_Q (x : Q) (xs : list Q) : Q :=
  foldl (λ m y : Q, if Qlt_le_dec m y then y else m) x xs.

(** [maxQValue(state)] *)
Definition maxQValue (self : QLearnAgent) (state : GameStateFeatures) : Q :=
  let qValues :=
    (λ item : Key * (Q * nat), item.2.1)
      <$> filter (λ item : Key * (Q * nat), features_eq item.1.1 state = true)
                 (qTable self) in
  match qValues with
  | [] => 0%Q
  | q :: qs => py_max_Q q qs
  end.

(** [learn(state, action, reward, nextState)] *)
Definition learn (self : QLearnAgent) (state : GameStateFeatures)
    (action : Move) (reward : Q) (nextState : GameStateFeatures)
  : QLearnAgent :=
  let updatedQValues :=
    ((1 - alpha self) * getQValue self state action
     + alpha self * (reward + gamma self * maxQValue self nextState))%Q in
  let visitCount := (default (0%Q, 0) (dict_get (qTable self) (state, action))).2 in
  set_qTable
    (dict_set (qTable self) (state, action) (updatedQValues, visitCount + 1))
    self.

(** [updateCount(state, action)] *)
Definition updateCount (self : QLearnAgent) (state : GameStateFeatures)
    (action : Move) : QLearnAgent :=
  let '(qValue, times) :=
    default (0%Q, 0) (dict_get (qTable self) (state, action)) in
  set_qTable (dict_set (qTable self) (state, action) (qValue, times + 1)) self.

(** [getCount(state, action)] *)
Definition getCount (self : QLearnAgent) (state : GameStateFeatures)
    (action : Move) : nat :=
  (default (0%Q, 0) (dict_get (qTable self) (state, action))).2.

(** [explorationFn(utility, counts)] *)
Definition explorationFn (utility : Q) (counts : nat) : Q :=
  let C := 10%Q in
  let explorationBonus := (C / inject_Z (Z.of_nat counts + 1))%Q in
  (utility + explorationBonus)%Q.

(** [max(d, key=d.get)] on a non-empty [dict] given by its items: the first
    key of largest value. *)
Definition py_max_key (item : Move * Q) (items : list (Move * Q)) : Move :=
  (foldl (λ best it : Move * Q, if Qlt_le_dec best.2 it.2 then it else best)
         item items).1.

(** The test [random.random() < self.epsilon] of [get_move]. *)
Definition explores (self : QLearnAgent) (rnd : Random) : bool :=
  if Qlt_le_dec (random_random rnd) (epsilon self) then true else false.

(** The agent after the learning step that opens [get_move] and [final]:
    the pending state and action are rewarded against [current]. *)
Definition learn_pending (self : QLearnAgent) (current : GameState)
  : option QLearnAgent :=
  match last (previousState self) with
  | Some previousState =>
      previousAction ← last (previousAction self);
      reward ← computeReward previousState current;
      Some (learn self (mkFeatures previousState) previousAction reward
                  (mkFeatures current))
  | None => Some self
  end.

(** [get_move(game_state)]: the action or [None], the agent and the
    snapshot after the call. The items of [adjustedQValues] are listed in
    the order of [moves], whose elements are distinct directions. *)
Definition get_move (self : QLearnAgent) (game_state : GameState)
    (rnd : Random) : option (option Move * QLearnAgent * GameState) :=
  '(moves, game_state) ← GameState_valid_moves game_state;
  match moves with
  | [] => Some (None, self, game_state)
  | move0 :: moves' =>
      let stateFeatures := mkFeatures game_state in
      self ← learn_pending self game_state;
      action ←
        (if explores self rnd
         then random_choice (choice_index rnd) moves
         else
           let adjusted (action : Move) :=
             (action,
              explorationFn (getQValue self stateFeatures action)
                            (getCount self stateFeatures action)) in
           Some (py_max_key (adjusted move0) (adjusted <$> moves')));
      let self := updateCount self stateFeatures action in
      let self := push_previous game_state action self in
      Some (Some action, self, game_state)
  end.

Definition training_done : string :=
  "Training Done (turning off epsilon and alpha)".

(** ['-' * n] *)
Fixpoint dashes (n : nat) : string :=
  match n with
  | 0 => EmptyString
  | S n' => "-" +:+ dashes n'
  end.

(** [final(state)]: the agent after the call and the lines it prints. *)
Definition final (self : QLearnAgent) (state : GameState)
  : option (QLearnAgent * list Output) :=
  let out :=
    [PrintLine "Game {} just ended!" [(episodesSoFar self + 1)%Z];
     PrintLine "Final score: {}" [get_score state]] in
  self ← learn_pending self state;
  let self := clear_previous self in
  let self := incrementEpisodesSoFar self in
  if bool_decide (numTraining self ≤ episodesSoFar self)%Z
  then
    let self := setAlpha 0%Q self in
    let self := setEpsilon 0%Q self in
    Some (self,
          out ++ [PrintLine training_done [];
                  PrintLine (dashes (String.length training_done)) []])
  else Some (self, out).

(** ** The agent interface and the other agents (agents.py 4-61)

    [get_move] of an agent class, and [final], which only [QLearnAgent]
    defines: looking it up on another agent raises [AttributeError]. *)
Class Agent (A : Type) := {
  agent_get_move : A → GameState → Random → option (option Move * A * GameState);
  agent_final : A → GameState → option (A * list Output)
}.

Global Instance QLearnAgent_Agent : Agent QLearnAgent :=
  {| agent_get_move := get_move; agent_final := final |}.

Inductive RandomAgent := mkRandomAgent.

Definition RandomAgent_get_move (self : RandomAgent) (game_state : GameState)
    (rnd : Random) : option (option Move * RandomAgent * GameState) :=
  '(moves, game_state) ← GameState_valid_moves game_state;
  match moves with
  | [] => Some (None, self, game_state)
  | _ =>
      action ← random_choice (choice_index rnd) moves;
      Some (Some action, self, game_state)
  end.

Global Instance RandomAgent_Agent : Agent RandomAgent :=
  {| agent_get_move := RandomAgent_get_move; agent_final := λ _ _, None |}.

Inductive LeftAgent := mkLeftAgent.

Definition LeftAgent_get_move (self : LeftAgent) (game_state : GameState)
    (rnd : Random) : option (option Move * LeftAgent * GameState) :=
  '(moves, game_state) ← GameState_valid_moves game_state;
  match moves with
  | [] => Some (None, self, game_state)
  | _ =>
      let action :=
        if bool_decide (MoveLeft ∈ moves) then MoveLeft
        else if bool_decide (MoveDown ∈ moves) then MoveDown
        else if bool_decide (MoveRight ∈ moves) then MoveRight
        else MoveUp in
      Some (Some action, self, game_state)
  end.

Global Instance LeftAgent_Agent : Agent LeftAgent :=
  {| agent_get_move := LeftAgent_get_move; agent_final := λ _ _, None |}.

(** ** Class [Game]: a session driven by an agent (game.py 3-154)

    The attributes of the [Game] object, its agent, the address of the next
    object to allocate and the lines printed so far. *)
Record Session (A : Type) := mkSession {
  game : BoardState;
  goal : Z;
  agent : A;
  next_id : nat;
  output : list Output
}.
Arguments mkSession {A}.
Arguments game {A}.
Arguments goal {A}.
Arguments agent {A}.
Arguments next_id {A}.
Arguments output {A}.

Definition no_valid_moves : string := "No valid moves available. Game over.".
Definition invalid_move : string := "Invalid move returned by agent. Game over.".
Definition congratulations : string := "Congratulations! You've won the game!".

(** The body of the [while] loop of [play] from the test [if move_choice:]
    on, for a session with an agent: the session after it, and whether the
    loop goes on ([false] after a [break]). *)
Definition play_choice {A : Type} (w : Session A) (move_choice : option Move)
    (rnd : Random) : option (Session A * bool) :=
  match move_choice with
  | Some direction =>
      '(moved, g) ← move_method direction true (game w);
      if moved : bool then
        g ← add_new_tile rnd g;
        if check_win (goal w) g
        then Some (mkSession g (goal w) (agent w) (next_id w)
                     (output w ++ [PrintBoard (board g);
                                   PrintLine congratulations []]),
                   false)
        else Some (mkSession g (goal w) (agent w) (next_id w) (output w),
                   true)
      else Some (mkSession g (goal w) (agent w) (next_id w)
                   (output w ++ [PrintLine invalid_move []]),
                 false)
  | None =>
      Some (mkSession (game w) (goal w) (agent w) (next_id w)
              (output w ++ [PrintLine no_valid_moves []]),
            false)
  end.

(** One pass through the body of the loop: the agent is asked for a move on
    a new snapshot, then the answer is handled. *)
Definition play_body {A : Type} `{Agent A} (w : Session A) (rnd : Random)
  : option (Session A * bool) :=
  let snapshot :=
    GameState_init (next_id w) (board (game w)) (score (game w))
                   (dim (game w)) in
  '(move_choice, agent', _) ← agent_get_move (agent w) snapshot rnd;
  play_choice (mkSession (game w) (goal w) agent' (S (next_id w)) (output w))
              move_choice rnd.

(** The [while] loop of [play]; one element of [rnds] is consumed per turn,
    and the result is [None] as well when [rnds] runs out before the loop
    ends. *)
Fixpoint play_loop {A : Type} `{Agent A} (rnds : list Random) (w : Session A)
  : option (Session A) :=
  '(over, g) ← check_game_over (game w);
  let w := mkSession g (goal w) (agent w) (next_id w) (output w) in
  if over : bool then Some w
  else
    match rnds with
    | [] => None
    | rnd :: rnds' =>
        '(w, continue) ← play_body w rnd;
        if continue : bool then play_loop rnds' w else Some w
    end.

(** [play()] *)
Definition play {A : Type} `{Agent A} (rnds : list Random) (w : Session A)
  : option (Session A) :=
  w ← play_loop rnds w;
  let terminal :=
    GameState_init (next_id w) (board (game w)) (score (game w))
                   (dim (game w)) in
  '(agent', lines) ← agent_final (agent w) terminal;
  Some (mkSession (game w) (goal w) agent' (S (next_id w))
          (output w ++ lines
           ++ [PrintBoard (board (game w));
               PrintLine "Game Over!" [];
               PrintLine "Final Score: {}" [score (game w)]])).

(** * Vocabulary of the statements *)

(** The offsets, from the cell the loop of [merge] stands at, of the
    iterations that find an equal pair: the cell has value [x] and is
    followed by [rest]. *)
Fixpoint trace_from (x : Z) (rest : list Z) : list nat :=
  match rest with
  | [] => []
  | y :: rest' =>
      if bool_decide (x = y) then 0 :: (S <$> trace_from 0%Z rest')
      else S <$> trace_from y rest'
  end.

(** An increasing list of indices, from [lo] on, any two at least 2 apart. *)
Fixpoint gapped (lo : nat) (l : list nat) : Prop :=
  match l with
  | [] => True
  | i :: l' => lo ≤ i ∧ gapped (i + 2) l'
  end.

(** What [move_left] makes of one row, and the score it adds for it. *)
Definition row_left (d : nat) (row : list Z) : list Z :=
  let merged_and_compressed_row := compress (merge_rec (compress row)) in
  merged_and_compressed_row
    ++ replicate (d - length merged_and_compressed_row) 0%Z.

Definition row_gain (row : list Z) : Z := merge_gain (compress row).

(** The sum of the cells of a row and of a board. *)
Definition row_sum (row : list Z) : Z := foldr Z.add 0%Z row.
Definition board_sum (b : list (list Z)) : Z := row_sum (row_sum <$> b).

(** The board a move in [direction] leaves, and the score it adds: the left
    move row by row, between the quarter turns of the source. *)
Definition board_left (d : nat) (b : list (list Z)) : list (list Z) :=
  row_left d <$> b.

Definition turns_before (direction : Move) : nat :=
  match direction with
  | MoveLeft => 0
  | MoveDown => 1
  | MoveRight => 2
  | MoveUp => 3
  end.

Definition turns_after (direction : Move) : nat :=
  match direction with
  | MoveLeft => 0
  | MoveDown => 3
  | MoveRight => 2
  | MoveUp => 1
  end.

Definition move_board (direction : Move) (d : nat) (b : list (list Z))
  : list (list Z) :=
  Nat.iter (turns_after direction) rotate_board
    (board_left d (Nat.iter (turns_before direction) rotate_board b)).

Definition move_gain (direction : Move) (b : list (list Z)) : Z :=
  row_sum (row_gain <$> Nat.iter (turns_before direction) rotate_board b).

(** A row whose non-zero cells all come before its zeros. *)
Definition left_packed (row : list Z) : Prop :=
  ∃ tiles k, row = tiles ++ replicate k 0%Z ∧ Forall (λ x, x ≠ 0%Z) tiles.

(** All cells of a board are non-negative. *)
Definition nonnegative (b : list (list Z)) : Prop :=
  Forall (Forall (λ x, 0 ≤ x)%Z) b.

(** A board of [n] rows of [n] cells. *)
Definition square (n : nat) (b : list (list Z)) : Prop :=
  length b = n ∧ Forall (λ row, length row = n) b.

(** The invariant of [Game] and of the snapshots taken from it: the board
    is [dim] by [dim]. *)
Definition well_formed (self : BoardState) : Prop :=
  square (dim self) (board self).

(** Cell [(i, j)] of a board, and the [n] by [n] board of given cells. *)
Definition cell (b : list (list Z)) (i j : nat) : Z := nth j (nth i b []) 0%Z.

Definition tabulate (n : nat) (f : nat → nat → Z) : list (list Z) :=
  (λ i, f i <$> seq 0 n) <$> seq 0 n.

(** The sum of [f 0], ..., [f (n - 1)]. *)
Definition sumZ (f : nat → Z) (n : nat) : Z := row_sum (f <$> seq 0 n).

(** The board whose rows are the columns of [b], and the move of one row
    to the right: the left move of the mirrored row, mirrored back. *)
Definition transpose (b : list (list Z)) : list (list Z) :=
  tabulate (length b) (λ r c, cell b c r).

Definition row_right (d : nat) (row : list Z) : list Z :=
  reverse (row_left d (reverse row)).

(** The move in [direction] changes the board: it returns, whatever the
    scoring flag, and leaves a board different from the one it found. *)
Definition changes_board (direction : Move) (self : BoardState) : Prop :=
  ∀ update_score, ∃ moved self',
    move_method direction update_score self = Some (moved, self')
    ∧ board self' ≠ board self.

(** The move in [direction] changes at least one cell of the board. *)
Definition changes_cell (direction : Move) (self : BoardState) : Prop :=
  ∀ update_score, ∃ moved self',
    move_method direction update_score self = Some (moved, self')
    ∧ ∃ i j, i < dim self ∧ j < dim self
             ∧ cell (board self') i j ≠ cell (board self) i j.

(** The largest tile of the board is in cell (0, 0): the cell exists and no
    cell holds a larger value. *)
Definition max_in_corner (b : list (list Z)) : Prop :=
  ∃ row0 corner,
    b !! 0 = Some row0 ∧ row0 !! 0 = Some corner
    ∧ ∀ row x, row ∈ b → x ∈ row → (x ≤ corner)%Z.

(** A snapshot with at least one row and no empty row, as [computeReward]
    needs for its end state. *)
Definition rewardable (s : GameState) : Prop :=
  board (fields s) ≠ [] ∧ Forall (λ row, row ≠ []) (board (fields s)).

(** The number of cells of a board that hold 0, row by row. *)
Definition zero_cells (b : list (list Z)) : nat :=
  sum_list ((λ row, count_occ Z.eq_dec row 0%Z) <$> b).

(** Scores and empty cells for which every number of [computeReward] is
    held by a binary64 without rounding. *)
Definition exact_range (startState endState : GameState) : Prop :=
  (Z.abs (get_score startState) ≤ 2 ^ 50)%Z
  ∧ (Z.abs (get_score endState) ≤ 2 ^ 50)%Z
  ∧ (10 * Z.of_nat (zero_cells (board (fields endState))) ≤ 2 ^ 50)%Z.

(** The reward as the specification words it: the score increase, plus ten
    for every zero cell of the end board, plus the corner bonus. *)
Definition reward_by_spec (startState endState : GameState) (in_corner : bool)
  : Q :=
  (inject_Z (get_score endState - get_score startState)
   + 10 * inject_Z (Z.of_nat (zero_cells (board (fields endState))))
   + (if in_corner
      then inject_Z (get_score startState)
           + (1 # 2) * inject_Z (get_score endState - get_score startState)
      else 0))%Q.

(** The calls made on an agent: by a session ([get_move], [final]), or on
    its public methods [learn] and [updateCount]. *)
Inductive Call :=
  | CallGetMove (game_state : GameState) (rnd : Random)
  | CallFinal (state : GameState)
  | CallLearn (state : GameStateFeatures) (action : Move) (reward : Q)
              (nextState : GameStateFeatures)
  | CallUpdateCount (state : GameStateFeatures) (action : Move).

Definition call (self : QLearnAgent) (c : Call) : option QLearnAgent :=
  match c with
  | CallGetMove game_state rnd =>
      '(_, self', _) ← get_move self game_state rnd; Some self'
  | CallFinal state => '(self', _) ← final self state; Some self'
  | CallLearn state action reward nextState =>
      Some (learn self state action reward nextState)
  | CallUpdateCount state action => Some (updateCount self state action)
  end.

(** The agent after a sequence of calls. *)
Definition calls (self : QLearnAgent) (cs : list Call) : option QLearnAgent :=
  for_each call self cs.




(** The table [d'] keeps every key of [d] and has at least as many
    items. *)
Definition extends (d d' : QTable) : Prop :=
  (∀ k, is_Some (dict_get d k) → is_Some (dict_get d' k))
  ∧ length d ≤ length d'.

(** Sample objects: a 2 by 2 game with a move left, one without, and the
    4 by 4 game of the merge example. *)
Definition game_2x2 : BoardState :=
  {| board := [[2; 2]; [4; 0]]%Z; score := 0; dim := 2 |}.

Definition stuck_2x2 : BoardState :=
  {| board := [[2; 4]; [4; 2]]%Z; score := 12; dim := 2 |}.

Definition game_4x4 : BoardState :=
  {| board := [[2; 2; 2; 2]; [0; 0; 0; 0]; [0; 4; 0; 4]; [8; 0; 0; 2]]%Z;
     score := 0; dim := 4 |}.

Definition snapshot_2x2 : GameState := {| oid := 7; fields := game_2x2 |}.

(** Two snapshots of one board and score, allocated one after the other,
    and the agent [QLearnAgent()] with its default parameters 0.2, 0.05, 0.8,
    30 and 0. *)
Definition snapshot_a : GameState := GameState_init 1 [[2; 2]; [4; 0]]%Z 0 2.
Definition snapshot_b : GameState := GameState_init 2 [[2; 2]; [4; 0]]%Z 0 2.

Definition default_agent : QLearnAgent :=
  QLearnAgent_init (1 # 5) (1 # 20) (4 # 5) 30 0.

(** A further agent class, to exercise the loop of [play]: its [get_move]
    returns [None] on every snapshot and its [final] does nothing. *)
Inductive ResigningAgent := mkResigningAgent.

Global Instance ResigningAgent_Agent : Agent ResigningAgent :=
  {| agent_get_move := λ self game_state _, Some (None, self, game_state);
     agent_final := λ self _, Some (self, []) |}.

(** Sample sessions with goal 2048, a snapshot without a move, and the
    draws of a turn in which every draw is 0. *)
Definition stuck_snapshot : GameState := {| oid := 9; fields := stuck_2x2 |}.

Definition stuck_session : Session QLearnAgent :=
  mkSession stuck_2x2 2048 default_agent 0 [].

Definition resigning_session : Session ResigningAgent :=
  mkSession game_2x2 2048 mkResigningAgent 0 [].

Definition zero_draws : Random := mkRandom 0 0 0 0.

(** The draws of a turn in which [random.random()] returns 0.5. *)
Definition half_draw : Random := mkRandom (2 ^ 52) 0 0 0.

(** The default agent after a first turn on [snapshot_a] that chose
    ['left']. *)
Definition after_first_turn : QLearnAgent :=
  mkQLearnAgent (1 # 5) (1 # 20) (4 # 5) 30 0 0
    [((mkFeatures snapshot_a, MoveLeft), (0%Q, 1))]
    [snapshot_a] [MoveLeft].

(** An agent with five training episodes ahead, in the middle of its first
    episode, and a later snapshot of the same board with a higher score. *)
Definition training_agent : QLearnAgent :=
  mkQLearnAgent (1 # 5) (1 # 20) (4 # 5) 30 5 0
    [((mkFeatures snapshot_a, MoveLeft), (0%Q, 1))]
    [snapshot_a] [MoveLeft].

Definition snapshot_c : GameState := GameState_init 3 [[2; 2]; [4; 0]]%Z 4 2.

(** A snapshot before a move to the left, the snapshot after it with its
    new tile, and snapshots of the later board under other scores. *)
Definition state_before : GameState := GameState_init 11 [[2; 2]; [4; 0]]%Z 4 2.
Definition state_after : GameState := GameState_init 12 [[4; 0]; [4; 2]]%Z 8 2.
Definition state_later : GameState := GameState_init 13 [[4; 0]; [4; 2]]%Z 12 2.
Definition state_zero : GameState := GameState_init 14 [[4; 0]; [4; 2]]%Z 0 2.
Definition state_huge : GameState :=
  GameState_init 15 [[4; 0]; [4; 2]]%Z (2 ^ 53 + 1) 2.
Definition state_overflow : GameState :=
  GameState_init 16 [[4; 0]; [4; 2]]%Z (2 ^ 1024) 2.

(** A snapshot whose board has no row. *)
Definition state_no_rows : GameState := GameState_init 17 [] 0 0.

(** A session of the random agent on the 2 by 2 game. *)
Definition random_session : Session RandomAgent :=
  mkSession game_2x2 2048 mkRandomAgent 0 [].

(** * Properties of the board engine *)

(** ** [compress] *)

Lemma compress_cons_nonzero (x : Z) (row : list Z) :
  x ≠ 0%Z → compress (x :: row) = x :: compress row.
Proof. intros Hx. unfold compress. by rewrite filter_cons_True. Qed.

Lemma compress_cons_zero (row : list Z) :
  compress (0%Z :: row) = compress row.
Proof. unfold compress. by rewrite filter_cons_False by (intros H; by apply H). Qed.

Lemma compress_nonzero (row : list Z) : Forall (λ x, x ≠ 0%Z) (compress row).
Proof.
  apply Forall_forall. intros x Hx.
  by apply list_elem_of_filter in Hx as [? _].
Qed.

Lemma compress_fixed (row : list Z) :
  Forall (λ x, x ≠ 0%Z) row → compress row = row.
Proof.
  induction 1 as [|x row Hx _ IH]; [done|].
  by rewrite compress_cons_nonzero, IH.
Qed.

Lemma compress_length_lt (row : list Z) :
  length (compress row) < length row ↔ 0%Z ∈ row.
Proof.
  split.
  - induction row as [|x row IH]; simpl; [lia|].
    destruct (decide (x = 0%Z)) as [->|Hx]; [intros _; left|].
    rewrite compress_cons_nonzero by done. simpl. intros Hlt.
    right. apply IH. lia.
  - intros Hin. eapply length_filter_lt; [exact Hin|]. intros H; by apply H.
Qed.

Lemma compress_maximal (row l : list Z) :
  l `sublist_of` row → Forall (λ x, x ≠ 0%Z) l → l `sublist_of` compress row.
Proof.
  induction 1 as [|x l row Hsub IH|x l row Hsub IH]; intros Hnz.
  - constructor.
  - apply Forall_cons in Hnz as [Hx Hnz].
    rewrite compress_cons_nonzero by done. constructor. by apply IH.
  - destruct (decide (x = 0%Z)) as [->|Hx].
    + rewrite compress_cons_zero. by apply IH.
    + rewrite compress_cons_nonzero by done. apply sublist_cons. by apply IH.
Qed.

(** C9, as the code has it: [compress(row)] is the subsequence of the
    non-zero entries of [row], in their order in [row] (it is a subsequence
    of [row] without zeros, and every subsequence of [row] without zeros is a
    subsequence of it); it is never longer than [row], and it is shorter
    exactly when [row] contains a zero. *)
Theorem compress_spec (row : list Z) :
  compress row `sublist_of` row
  ∧ Forall (λ x, x ≠ 0%Z) (compress row)
  ∧ (∀ l, l `sublist_of` row → Forall (λ x, x ≠ 0%Z) l →
          l `sublist_of` compress row)
  ∧ length (compress row) ≤ length row
  ∧ (length (compress row) < length row ↔ 0%Z ∈ row).
Proof.
  split; [apply sublist_filter|].
  split; [apply compress_nonzero|].
  split; [intros l; apply compress_maximal|].
  split; [apply length_filter|apply compress_length_lt].
Qed.

(** C9, as stated, fails: a row without zeros is returned at full length. *)
Lemma compress_not_shorter :
  compress [2; 4]%Z = [2; 4]%Z
  ∧ ¬ (length (compress [2; 4]%Z) < length [2; 4]%Z).
Proof. split; [reflexivity|]. vm_compute. lia. Qed.

(** ** [merge]: the loop computes [merge_from] *)

Lemma merge_at_middle (update_score : bool) (p : list Z) (x y : Z)
    (rest : list Z) (sc : Z) :
  merge_at update_score (p ++ x :: y :: rest, sc) (length p)
  = Some (if bool_decide (x = y)
          then (p ++ (x * 2)%Z :: 0%Z :: rest,
                if update_score then (sc + x * 2)%Z else sc)
          else (p ++ x :: y :: rest, sc)).
Proof.
  unfold merge_at.
  rewrite (list_lookup_middle p (y :: rest) x (length p) eq_refl). simpl.
  rewrite (lookup_app_r p) by lia.
  replace (length p + 1 - length p) with 1 by lia. simpl.
  case_bool_decide; [|done].
  do 2 f_equal.
  rewrite (insert_app_r_alt p) by lia.
  rewrite (insert_app_r_alt p) by lia.
  rewrite Nat.sub_diag.
  by replace (length p + 1 - length p) with 1 by lia.
Qed.

Lemma merge_loop_spec (update_score : bool) (rest : list Z) :
  ∀ (p : list Z) (x sc : Z),
    for_each (merge_at update_score) (p ++ x :: rest, sc)
             (seq (length p) (length rest))
    = Some (p ++ merge_from x rest,
            if update_score then (sc + gain_from x rest)%Z else sc).
Proof.
  induction rest as [|y rest IH]; intros p x sc.
  - simpl. do 2 f_equal. destruct update_score; lia.
  - cbn [length seq for_each merge_from gain_from].
    rewrite merge_at_middle. cbn [mbind option_bind].
    replace (S (length p)) with (length (p ++ [x])) at 1
      by (rewrite length_app; simpl; lia).
    case_bool_decide as Hxy.
    + rewrite (cons_middle (x * 2)%Z p), app_assoc.
      replace (length (p ++ [x])) with (length (p ++ [(x * 2)%Z]))
        by (rewrite !length_app; simpl; lia).
      rewrite IH, <- app_assoc. simpl.
      do 2 f_equal. destruct update_score; lia.
    + rewrite (cons_middle x p), app_assoc.
      by rewrite IH, <- app_assoc.
Qed.

Lemma merge_spec (update_score : bool) (row : list Z) (sc : Z) :
  merge update_score row sc
  = Some (merge_rec row,
          if update_score then (sc + merge_gain row)%Z else sc).
Proof.
  unfold merge, range. destruct row as [|x rest]; simpl.
  - do 2 f_equal. destruct update_score; lia.
  - rewrite Nat.sub_0_r. apply (merge_loop_spec update_score rest []).
Qed.

(** ** [merge]: which iterations merge *)

Lemma merge_trace_spec (rest : list Z) :
  ∀ (p : list Z) (x : Z),
    merge_trace (p ++ x :: rest) (seq (length p) (length rest))
    = (λ j, length p + j) <$> trace_from x rest.
Proof.
  induction rest as [|y rest IH]; intros p x; [done|].
  cbn [length seq merge_trace trace_from].
  rewrite merge_at_middle.
  rewrite (list_lookup_middle p (y :: rest) x (length p) eq_refl).
  rewrite (lookup_app_r p) by lia.
  replace (length p + 1 - length p) with 1 by lia. cbn [lookup list_lookup].
  assert (Hshift : ∀ (v : Z) (l : list nat),
    (λ j, length (p ++ [v]) + j) <$> l = (λ j, length p + j) <$> (S <$> l)).
  { intros v l. rewrite <- list_fmap_compose. apply list_fmap_ext.
    intros _ j _. rewrite length_app. simpl. lia. }
  case_bool_decide as Hxy.
  - rewrite bool_decide_true by congruence.
    rewrite (cons_middle (x * 2)%Z p), app_assoc.
    replace (S (length p)) with (length (p ++ [(x * 2)%Z]))
      by (rewrite length_app; simpl; lia).
    rewrite IH, Hshift. simpl. by rewrite Nat.add_0_r.
  - rewrite bool_decide_false by congruence.
    rewrite (cons_middle x p), app_assoc.
    replace (S (length p)) with (length (p ++ [x]))
      by (rewrite length_app; simpl; lia).
    by rewrite IH, Hshift.
Qed.

Lemma merge_events_cons (x : Z) (rest : list Z) :
  merge_events (x :: rest) = trace_from x rest.
Proof.
  unfold merge_events, range.
  change (length (x :: rest) - 1) with (length rest - 0).
  rewrite Nat.sub_0_r.
  etrans; [apply (merge_trace_spec rest [] x)|]. apply list_fmap_id.
Qed.

Lemma gapped_weaken (lo lo' : nat) (l : list nat) :
  lo' ≤ lo → gapped lo l → gapped lo' l.
Proof. destruct l; simpl; [done|]. intros ? [? ?]. split; [lia|done]. Qed.

Lemma gapped_succ (lo : nat) (l : list nat) :
  gapped lo l → gapped (S lo) (S <$> l).
Proof.
  revert lo. induction l as [|i l IH]; intros lo; simpl; [done|].
  intros [? Hl]. split; [lia|]. by apply (IH (i + 2)).
Qed.

Lemma gapped_lower (lo : nat) (l : list nat) (j : nat) :
  gapped lo l → j ∈ l → lo ≤ j.
Proof.
  revert lo. induction l as [|i l IH]; intros lo; simpl.
  - intros _ Hj. by apply elem_of_nil in Hj.
  - intros [? Hl] [->|Hj]%elem_of_cons; [done|].
    specialize (IH _ Hl Hj). lia.
Qed.

Lemma participations_gapped (lo : nat) (l : list nat) (k : nat) :
  gapped lo l →
  participations l k ≤ 1 ∧ (k < lo → participations l k = 0).
Proof.
  unfold participations. revert lo.
  induction l as [|i l IH]; intros lo; simpl; [lia|].
  intros [Hlo Hl]. destruct (IH _ Hl) as [IH1 IH0].
  rewrite filter_cons. case_decide as Hk; simpl.
  - split; [|lia]. rewrite IH0 by lia. lia.
  - split; [done|]. intros ?. apply IH0. lia.
Qed.

Lemma trace_from_gapped (rest : list Z) :
  Forall (λ y, y ≠ 0%Z) rest →
  ∀ x, gapped (if bool_decide (x = 0%Z) then 1 else 0) (trace_from x rest).
Proof.
  induction 1 as [|y rest Hy _ IH]; intros x; simpl; [done|].
  destruct (decide (x = y)) as [->|Hxy].
  - rewrite (bool_decide_false (y = 0%Z)) by done.
    rewrite bool_decide_true by done. simpl. split; [lia|].
    specialize (IH 0%Z). rewrite bool_decide_true in IH by done.
    by apply (gapped_succ 1).
  - rewrite (bool_decide_false (x = y)) by done.
    specialize (IH y). rewrite bool_decide_false in IH by done.
    apply (gapped_weaken 1); [case_bool_decide; lia|].
    by apply (gapped_succ 0).
Qed.

Lemma merge_from_zero_head (rest : list Z) :
  Forall (λ y, y ≠ 0%Z) rest → merge_from 0%Z rest !! 0 = Some 0%Z.
Proof.
  destruct 1 as [|y rest Hy _]; simpl; [done|].
  by rewrite bool_decide_false by congruence.
Qed.

Lemma trace_from_doubles (rest : list Z) :
  Forall (λ y, y ≠ 0%Z) rest →
  ∀ x j, j ∈ trace_from x rest →
    merge_from x rest !! j = (λ v, v * 2)%Z <$> (x :: rest) !! j
    ∧ merge_from x rest !! (j + 1) = Some 0%Z.
Proof.
  induction 1 as [|y rest Hy Hrest IH]; intros x j; simpl.
  - intros Hj. by apply elem_of_nil in Hj.
  - case_bool_decide as Hxy.
    + subst y. intros [->|Hj]%elem_of_cons.
      * simpl. split; [done|]. by apply merge_from_zero_head.
      * apply list_elem_of_fmap in Hj as (j' & -> & Hj').
        destruct (IH 0%Z j' Hj') as [IH1 IH2]. simpl.
        split; [|done]. rewrite IH1.
        pose proof (trace_from_gapped rest Hrest 0%Z) as Hg.
        rewrite bool_decide_true in Hg by done.
        pose proof (gapped_lower _ _ _ Hg Hj').
        destruct j' as [|j'']; [lia|done].
    + intros Hj. apply list_elem_of_fmap in Hj as (j' & -> & Hj').
      destruct (IH y j' Hj') as [IH1 IH2]. by simpl.
Qed.

Lemma move_left_row_spec (update_score moved : bool) (self : BoardState)
    (i : nat) (row : list Z) :
  board self !! i = Some row →
  move_left_row update_score (moved, self) i
  = Some (if bool_decide (row ≠ row_left (dim self) row) then true else moved,
          {| board := <[i := row_left (dim self) row]> (board self);
             score := if update_score then (score self + row_gain row)%Z
                      else score self;
             dim := dim self |}).
Proof.
  intros Hrow. unfold move_left_row. rewrite Hrow. cbn [mbind option_bind].
  rewrite merge_spec. cbn [mbind option_bind]. unfold row_left, row_gain.
  by destruct update_score.
Qed.


(** ** Square boards as tables of cells *)

Lemma cell_lookup (b : list (list Z)) (i j : nat) (row : list Z) (v : Z) :
  b !! i = Some row → row !! j = Some v → cell b i j = v.
Proof.
  intros Hrow Hv. unfold cell.
  rewrite (nth_lookup b), Hrow. simpl. by rewrite nth_lookup, Hv.
Qed.

Lemma tabulate_lookup (n : nat) (f : nat → nat → Z) (i : nat) :
  i < n → tabulate n f !! i = Some (f i <$> seq 0 n).
Proof.
  intros Hi. unfold tabulate.
  by rewrite list_lookup_fmap, lookup_seq_lt.
Qed.

Lemma cell_tabulate (n : nat) (f : nat → nat → Z) (i j : nat) :
  i < n → j < n → cell (tabulate n f) i j = f i j.
Proof.
  intros Hi Hj. eapply cell_lookup; [by apply tabulate_lookup|].
  by rewrite list_lookup_fmap, lookup_seq_lt.
Qed.

Lemma tabulate_square (n : nat) (f : nat → nat → Z) : square n (tabulate n f).
Proof.
  unfold square, tabulate. split.
  - by rewrite length_fmap, length_seq.
  - apply Forall_fmap, Forall_forall. intros i _. simpl.
    by rewrite length_fmap, length_seq.
Qed.

Lemma tabulate_ext (n : nat) (f g : nat → nat → Z) :
  (∀ i j, i < n → j < n → f i j = g i j) → tabulate n f = tabulate n g.
Proof.
  intros Hfg. unfold tabulate. apply list_fmap_ext. intros i ? Hi.
  apply lookup_seq in Hi as [-> Hi]. apply list_fmap_ext. intros j ? Hj.
  apply lookup_seq in Hj as [-> Hj]. by apply Hfg.
Qed.

Lemma square_tabulate (n : nat) (b : list (list Z)) :
  square n b → b = tabulate n (cell b).
Proof.
  intros [Hlen Hrows]. apply list_eq. intros i.
  destruct (decide (i < n)) as [Hi|Hi].
  - rewrite tabulate_lookup by done.
    destruct (lookup_lt_is_Some_2 b i) as [row Hrow]; [lia|].
    rewrite Hrow. f_equal. apply list_eq. intros j.
    assert (length row = n) as Hrowlen
      by (rewrite Forall_forall in Hrows; eapply Hrows, list_elem_of_lookup_2, Hrow).
    destruct (decide (j < n)) as [Hj|Hj].
    + rewrite list_lookup_fmap, lookup_seq_lt by done. simpl.
      destruct (lookup_lt_is_Some_2 row j) as [v Hv]; [lia|].
      rewrite Hv. f_equal. symmetry. by eapply cell_lookup.
    + rewrite !lookup_ge_None_2; [done| |lia].
      rewrite length_fmap, length_seq. lia.
  - rewrite !lookup_ge_None_2; [done| |lia].
    unfold tabulate. rewrite length_fmap, length_seq. lia.
Qed.

(** ** [rotate_board] on square boards *)

Lemma zip_length_uniform (n : nat) (rows : list (list Z)) :
  Forall (λ row, length row = n) rows → rows ≠ [] → zip_length rows = n.
Proof.
  destruct 1 as [|r rs Hr Hrs]; [done|]. intros _. simpl.
  induction Hrs as [|r' rs Hr' _ IH]; simpl; [done|]. lia.
Qed.

Lemma rotate_tabulate (n : nat) (b : list (list Z)) :
  square n b → rotate_board b = tabulate n (λ r c, cell b (n - 1 - c) r).
Proof.
  intros [Hlen Hrows]. unfold rotate_board, zip_star, range, tabulate.
  assert (zip_length (reverse b) = n) as ->.
  { destruct (decide (b = [])) as [->|Hne]; [by subst n|].
    apply zip_length_uniform.
    - by apply Forall_reverse.
    - intros Hrev. apply Hne.
      apply (f_equal reverse) in Hrev. by rewrite reverse_involutive in Hrev. }
  apply list_fmap_ext. intros j ? Hj. apply lookup_seq in Hj as [-> Hj].
  simpl. apply list_eq. intros c.
  rewrite !list_lookup_fmap.
  destruct (decide (c < n)) as [Hc|Hc].
  - rewrite lookup_seq_lt by done. rewrite reverse_lookup by lia.
    destruct (lookup_lt_is_Some_2 b (length b - S c)) as [row Hrow]; [lia|].
    rewrite Hrow. simpl. f_equal. unfold cell.
    rewrite (nth_lookup b).
    replace (n - 1 - c) with (length b - S c) by lia. by rewrite Hrow.
  - rewrite !lookup_ge_None_2; [done| |].
    + rewrite length_seq. lia.
    + rewrite length_reverse. lia.
Qed.

Lemma rotate_square (n : nat) (b : list (list Z)) :
  square n b → square n (rotate_board b).
Proof. intros Hb. rewrite (rotate_tabulate n b Hb). apply tabulate_square. Qed.

Lemma rotate_iter_square (n k : nat) (b : list (list Z)) :
  square n b → square n (Nat.iter k rotate_board b).
Proof. intros Hb. induction k; simpl; [done|]. by apply rotate_square. Qed.

Lemma rotate_rotate_tabulate (n : nat) (b : list (list Z)) :
  square n b →
  rotate_board (rotate_board b)
  = tabulate n (λ r c, cell b (n - 1 - r) (n - 1 - c)).
Proof.
  intros Hb. rewrite (rotate_tabulate n (rotate_board b)) by by apply rotate_square.
  apply tabulate_ext. intros r c Hr Hc.
  rewrite (rotate_tabulate n b Hb). rewrite cell_tabulate by lia. done.
Qed.

(** Four quarter turns bring a square board back. *)
Lemma rotate_four (n : nat) (b : list (list Z)) :
  square n b → Nat.iter 4 rotate_board b = b.
Proof.
  intros Hb. simpl.
  rewrite (rotate_rotate_tabulate n (rotate_board (rotate_board b)))
    by by do 2 apply rotate_square.
  etrans; [|symmetry; apply (square_tabulate n b Hb)].
  apply tabulate_ext. intros r c Hr Hc.
  rewrite (rotate_rotate_tabulate n b Hb). rewrite cell_tabulate by lia.
  f_equal; lia.
Qed.

Lemma rotate_inj (n : nat) (b1 b2 : list (list Z)) :
  square n b1 → square n b2 → rotate_board b1 = rotate_board b2 → b1 = b2.
Proof.
  intros H1 H2 Heq.
  rewrite <- (rotate_four n b1 H1), <- (rotate_four n b2 H2).
  change (Nat.iter 4 rotate_board ?b)
    with (Nat.iter 3 rotate_board (rotate_board b)).
  by rewrite Heq.
Qed.

(** ** Sums of cells *)

Lemma row_sum_app (l1 l2 : list Z) :
  row_sum (l1 ++ l2) = (row_sum l1 + row_sum l2)%Z.
Proof. induction l1 as [|x l1 IH]; simpl; [done|]. rewrite IH. lia. Qed.

Lemma row_sum_zeros (k : nat) : row_sum (replicate k 0%Z) = 0%Z.
Proof. induction k as [|k IH]; simpl; [done|]. by rewrite IH. Qed.

Lemma row_sum_compress (row : list Z) : row_sum (compress row) = row_sum row.
Proof.
  induction row as [|x row IH]; [done|].
  destruct (decide (x = 0%Z)) as [->|Hx].
  - rewrite compress_cons_zero. simpl. by rewrite IH.
  - rewrite compress_cons_nonzero by done. simpl. by rewrite IH.
Qed.

Lemma row_sum_merge_from (rest : list Z) :
  ∀ x, row_sum (merge_from x rest) = (x + row_sum rest)%Z.
Proof.
  induction rest as [|y rest IH]; intros x; simpl; [done|].
  case_bool_decide; simpl; rewrite IH; lia.
Qed.

Lemma row_sum_merge_rec (row : list Z) : row_sum (merge_rec row) = row_sum row.
Proof. destruct row; [done|]. apply row_sum_merge_from. Qed.

Lemma row_sum_row_left (d : nat) (row : list Z) :
  row_sum (row_left d row) = row_sum row.
Proof.
  unfold row_left. rewrite row_sum_app, row_sum_zeros.
  rewrite row_sum_compress, row_sum_merge_rec, row_sum_compress. lia.
Qed.

Lemma merge_rec_length (row : list Z) : length (merge_rec row) = length row.
Proof.
  destruct row as [|x rest]; [done|]. simpl. revert x.
  induction rest as [|y rest IH]; intros x; simpl; [done|].
  case_bool_decide; simpl; by rewrite IH.
Qed.

Lemma row_left_length (d : nat) (row : list Z) :
  length row ≤ d → length (row_left d row) = d.
Proof.
  intros Hlen. unfold row_left. rewrite length_app, length_replicate.
  pose proof (length_filter (λ num : Z, num ≠ 0%Z)
                (merge_rec (compress row))) as H1.
  pose proof (length_filter (λ num : Z, num ≠ 0%Z) row) as H2.
  rewrite merge_rec_length in H1. fold (compress row) in H2.
  fold (compress (merge_rec (compress row))) in H1. lia.
Qed.

Lemma sumZ_S (f : nat → Z) (n : nat) : sumZ f (S n) = (sumZ f n + f n)%Z.
Proof.
  unfold sumZ. rewrite seq_S, fmap_app, row_sum_app. simpl. lia.
Qed.

Lemma sumZ_ext (f g : nat → Z) (n : nat) :
  (∀ i, i < n → f i = g i) → sumZ f n = sumZ g n.
Proof.
  intros Hfg. unfold sumZ. f_equal. apply list_fmap_ext.
  intros i ? Hi. apply lookup_seq in Hi as [-> Hi]. by apply Hfg.
Qed.

Lemma sumZ_add (f g : nat → Z) (n : nat) :
  sumZ (λ i, f i + g i)%Z n = (sumZ f n + sumZ g n)%Z.
Proof.
  induction n as [|n IH]; [done|]. rewrite !sumZ_S, IH. lia.
Qed.

Lemma sumZ_swap (f : nat → nat → Z) (n m : nat) :
  sumZ (λ i, sumZ (f i) m) n = sumZ (λ j, sumZ (λ i, f i j) n) m.
Proof.
  induction n as [|n IH].
  - unfold sumZ at 1. simpl. symmetry.
    induction m as [|m IHm]; [done|]. rewrite sumZ_S, IHm. done.
  - rewrite sumZ_S, IH, <- sumZ_add. apply sumZ_ext.
    intros j _. by rewrite sumZ_S.
Qed.

Lemma sumZ_shift (f : nat → Z) (n : nat) :
  sumZ f (S n) = (f 0%nat + sumZ (λ i, f (S i)) n)%Z.
Proof.
  unfold sumZ. cbn [seq fmap list_fmap row_sum foldr].
  by rewrite <- fmap_S_seq, <- list_fmap_compose.
Qed.

Lemma sumZ_reverse (g : nat → Z) (n : nat) :
  sumZ (λ c, g (n - 1 - c)) n = sumZ g n.
Proof.
  induction n as [|n IH]; [done|].
  rewrite sumZ_shift, (sumZ_S g), <- IH.
  replace (S n - 1 - 0) with n by lia.
  rewrite (sumZ_ext _ (λ c, g (n - 1 - c)) n); [lia|].
  intros c Hc. f_equal. lia.
Qed.

Lemma board_sum_tabulate (n : nat) (f : nat → nat → Z) :
  board_sum (tabulate n f) = sumZ (λ i, sumZ (f i) n) n.
Proof.
  unfold board_sum, tabulate, sumZ. by rewrite <- list_fmap_compose.
Qed.

Lemma board_sum_rotate (n : nat) (b : list (list Z)) :
  square n b → board_sum (rotate_board b) = board_sum b.
Proof.
  intros Hb. rewrite (rotate_tabulate n b Hb).
  etrans; [|symmetry; apply f_equal, (square_tabulate n b Hb)].
  rewrite !board_sum_tabulate, sumZ_swap.
  apply (sumZ_reverse (λ i, sumZ (cell b i) n)).
Qed.

Lemma board_sum_rotate_iter (n k : nat) (b : list (list Z)) :
  square n b → board_sum (Nat.iter k rotate_board b) = board_sum b.
Proof.
  intros Hb. induction k as [|k IH]; simpl; [done|].
  rewrite (board_sum_rotate n) by by apply rotate_iter_square. done.
Qed.

(** ** The four moves as functions of the board *)

Lemma move_left_loop_spec (update_score : bool) (d : nat)
    (todo : list (list Z)) :
  ∀ (above : list (list Z)) (m : bool) (sc : Z),
    for_each (move_left_row update_score)
      (m, {| board := above ++ todo; score := sc; dim := d |})
      (seq (length above) (length todo))
    = Some (if bool_decide (Exists (λ row, row ≠ row_left d row) todo)
            then true else m,
            {| board := above ++ board_left d todo;
               score := if update_score
                        then (sc + row_sum (row_gain <$> todo))%Z else sc;
               dim := d |}).
Proof.
  induction todo as [|row todo IH]; intros above m sc.
  - cbn [length seq for_each].
    rewrite bool_decide_false by (intros H; inversion H).
    simpl. do 3 f_equal. destruct update_score; lia.
  - cbn [length seq for_each].
    rewrite (move_left_row_spec _ _ _ _ row)
      by apply list_lookup_middle, eq_refl.
    cbn [mbind option_bind board score dim].
    rewrite (insert_app_r_alt above) by lia.
    rewrite Nat.sub_diag. cbn [insert list_insert].
    rewrite (cons_middle (row_left d row) above), app_assoc.
    replace (S (length above)) with (length (above ++ [row_left d row]))
      by (rewrite length_app; simpl; lia).
    rewrite IH, <- app_assoc. f_equal. f_equal.
    + destruct (decide (row ≠ row_left d row)) as [Hrow|Hrow].
      * rewrite (bool_decide_true (row ≠ _)) by done.
        rewrite (bool_decide_true (Exists _ (_ :: _))) by by left.
        by case_bool_decide.
      * rewrite (bool_decide_false (row ≠ _)) by done.
        apply (f_equal (λ c : bool, if c then true else m)).
        apply bool_decide_ext. rewrite Exists_cons. tauto.
    + f_equal. destruct update_score; [|done].
      rewrite fmap_cons. simpl. lia.
Qed.

Lemma Exists_changed {A : Type} `{EqDecision A} (f : A → A) (l : list A) :
  Exists (λ x, x ≠ f x) l ↔ f <$> l ≠ l.
Proof.
  induction l as [|x l IH].
  - rewrite Exists_nil. simpl. tauto.
  - rewrite Exists_cons, IH, fmap_cons. split.
    + intros [Hx|Hl] [= Hx' Hl']; [by apply Hx|by apply Hl].
    + intros Hne.
      destruct (decide (x = f x)) as [Hx|Hx]; [|by left].
      right. intros Hl. apply Hne. by rewrite <- Hx, Hl.
Qed.

Lemma board_left_square (n : nat) (b : list (list Z)) :
  square n b → square n (board_left n b).
Proof.
  intros [Hlen Hrows]. unfold board_left. split.
  - by rewrite length_fmap.
  - apply Forall_fmap. eapply Forall_impl; [exact Hrows|].
    intros row Hrow. simpl in *. apply row_left_length. lia.
Qed.

Lemma board_sum_board_left (d : nat) (b : list (list Z)) :
  board_sum (board_left d b) = board_sum b.
Proof.
  unfold board_sum, board_left. rewrite <- list_fmap_compose.
  apply (f_equal row_sum), list_fmap_ext.
  intros _ row _. simpl. apply row_sum_row_left.
Qed.

Lemma move_left_spec (update_score : bool) (self : BoardState) :
  length (board self) = dim self →
  move_left update_score self
  = Some (bool_decide (board_left (dim self) (board self) ≠ board self),
          {| board := board_left (dim self) (board self);
             score := if update_score
                      then (score self + row_sum (row_gain <$> board self))%Z
                      else score self;
             dim := dim self |}).
Proof.
  intros Hlen. unfold move_left, range. destruct self as [b sc d].
  cbn [board score dim] in *. subst d.
  etrans; [apply (move_left_loop_spec update_score (length b) b [] false sc)|].
  cbn [app]. do 2 f_equal.
  destruct (decide (board_left (length b) b ≠ b)) as [Hne|Heq].
  - rewrite (bool_decide_true (_ ≠ _)) by done.
    by rewrite bool_decide_true by by apply Exists_changed.
  - rewrite (bool_decide_false (_ ≠ _)) by done.
    rewrite bool_decide_false; [done|].
    intros Hex. by apply Exists_changed in Hex.
Qed.

(** C4: a row [[2, 2, 2, 2]] of a board of dimension 4 becomes
    [[4, 4, 0, 0]] under the left move with scoring and adds 8 to the score,
    in the loop body of [move_left] on any such board and for [move_left]
    on the board whose other rows are empty; in the merge pass of a left
    move every cell takes part in at most one merge, and where a merge
    happens at [i] the doubled value is still at [i] and a zero at [i + 1]
    when the pass ends. *)
Theorem merge_no_cascade :
  (∀ (above below : list (list Z)) (sc : Z) (moved : bool),
     move_left_row true
       (moved, {| board := above ++ [2; 2; 2; 2]%Z :: below;
                  score := sc; dim := 4 |})
       (length above)
     = Some (true, {| board := above ++ [4; 4; 0; 0]%Z :: below;
                      score := (sc + 8)%Z; dim := 4 |}))
  ∧ (∀ sc : Z,
       move_left true
         {| board := [[2; 2; 2; 2]; [0; 0; 0; 0]; [0; 0; 0; 0]; [0; 0; 0; 0]]%Z;
            score := sc; dim := 4 |}
       = Some (true,
               {| board := [[4; 4; 0; 0]; [0; 0; 0; 0]; [0; 0; 0; 0];
                            [0; 0; 0; 0]]%Z;
                  score := (sc + 8)%Z; dim := 4 |}))
  ∧ (∀ (row : list Z) (k : nat),
       participations (merge_events (compress row)) k ≤ 1)
  ∧ (∀ (row : list Z) (update_score : bool) (sc : Z),
       ∃ merged sc',
         merge update_score (compress row) sc = Some (merged, sc')
         ∧ ∀ i, i ∈ merge_events (compress row) →
             merged !! i = (λ v, v * 2)%Z <$> compress row !! i
             ∧ merged !! (i + 1) = Some 0%Z).
Proof.
  split_and!.
  - intros above below sc moved.
    rewrite (move_left_row_spec _ _ _ _ [2; 2; 2; 2]%Z)
      by apply list_lookup_middle, eq_refl.
    cbn [board score dim].
    replace (row_left 4 [2; 2; 2; 2]%Z) with [4; 4; 0; 0]%Z
      by (vm_compute; reflexivity).
    replace (row_gain [2; 2; 2; 2]%Z) with 8%Z by (vm_compute; reflexivity).
    rewrite bool_decide_true by discriminate.
    rewrite (insert_app_r_alt above) by lia.
    by rewrite Nat.sub_diag.
  - intros sc. rewrite move_left_spec by reflexivity. cbn [board score dim].
    replace (row_sum (row_gain <$> _)) with 8%Z by (vm_compute; reflexivity).
    by vm_compute (board_left _ _).
  - intros row k.
    pose proof (compress_nonzero row) as Hnz.
    destruct (compress row) as [|x rest]; [cbn; lia|].
    rewrite merge_events_cons. apply Forall_cons in Hnz as [_ Hnz].
    eapply participations_gapped, (trace_from_gapped rest Hnz x).
  - intros row update_score sc. rewrite merge_spec. eexists _, _.
    split; [done|]. intros i.
    pose proof (compress_nonzero row) as Hnz.
    destruct (compress row) as [|x rest].
    + intros Hi. by apply elem_of_nil in Hi.
    + rewrite merge_events_cons. apply Forall_cons in Hnz as [_ Hnz].
      by apply trace_from_doubles.
Qed.

Lemma rotate_iter_add (j k : nat) (b : list (list Z)) :
  Nat.iter j rotate_board (Nat.iter k rotate_board b)
  = Nat.iter (j + k) rotate_board b.
Proof. induction j as [|j IH]; simpl; [done|]. by rewrite IH. Qed.

Lemma rotate_iter_inj (n k : nat) (b1 b2 : list (list Z)) :
  square n b1 → square n b2 →
  Nat.iter k rotate_board b1 = Nat.iter k rotate_board b2 → b1 = b2.
Proof.
  intros H1 H2. induction k as [|k IH]; simpl; [done|].
  intros Heq. apply IH. eapply rotate_inj; [..|exact Heq];
    by apply rotate_iter_square.
Qed.

Lemma turns_total (direction : Move) (n : nat) (b : list (list Z)) :
  square n b →
  Nat.iter (turns_after direction) rotate_board
    (Nat.iter (turns_before direction) rotate_board b) = b.
Proof.
  intros Hb. rewrite rotate_iter_add.
  destruct direction; simpl; try done; by apply (rotate_four n).
Qed.

(** A move changes the board exactly when its left move changes the turned
    board. *)
Lemma move_board_changed (direction : Move) (n : nat) (b : list (list Z)) :
  square n b →
  move_board direction n b ≠ b
  ↔ board_left n (Nat.iter (turns_before direction) rotate_board b)
    ≠ Nat.iter (turns_before direction) rotate_board b.
Proof.
  intros Hb. unfold move_board.
  set (t := Nat.iter (turns_before direction) rotate_board b).
  assert (square n t) as Ht by by apply rotate_iter_square.
  pose proof (turns_total direction n b Hb) as Hback. fold t in Hback.
  split; intros Hne Heq; apply Hne; [by rewrite Heq|].
  apply (rotate_iter_inj n (turns_after direction));
    [by apply board_left_square|done|by rewrite Heq].
Qed.

(** Every move method returns on a well-formed object, with the flag, the
    board and the score given by [move_board] and [move_gain]. *)
Lemma move_method_spec (direction : Move) (update_score : bool)
    (self : BoardState) :
  well_formed self →
  move_method direction update_score self
  = Some (bool_decide (move_board direction (dim self) (board self)
                       ≠ board self),
          {| board := move_board direction (dim self) (board self);
             score := if update_score
                      then (score self + move_gain direction (board self))%Z
                      else score self;
             dim := dim self |}).
Proof.
  intros Hwf. unfold well_formed in Hwf.
  set (t := Nat.iter (turns_before direction) rotate_board (board self)).
  assert (square (dim self) t) as Ht by by apply rotate_iter_square.
  assert (move_left update_score (set_board t self)
          = Some (bool_decide (move_board direction (dim self) (board self)
                               ≠ board self),
                  {| board := board_left (dim self) t;
                     score := if update_score
                              then (score self
                                    + move_gain direction (board self))%Z
                              else score self;
                     dim := dim self |})) as Hleft.
  { rewrite move_left_spec by apply Ht. cbn [set_board board score dim].
    do 2 f_equal. apply bool_decide_ext. symmetry.
    by apply move_board_changed. }
  destruct self as [b sc d].
  destruct direction; unfold move_method, move_down, move_up, move_right;
    subst t; unfold set_board in Hleft |- *;
    cbn [board score dim turns_before Nat.iter nat_rect] in Hleft |- *;
    [exact Hleft|rewrite Hleft; done..].
Qed.

(** ** Probing moves: [simulate_move], [move_possible], [valid_moves] *)

Lemma changes_board_spec (direction : Move) (self : BoardState) :
  well_formed self →
  changes_board direction self
  ↔ move_board direction (dim self) (board self) ≠ board self.
Proof.
  intros Hwf. unfold changes_board. split.
  - intros H. destruct (H false) as (moved & self' & Hmove & Hne).
    rewrite move_method_spec in Hmove by done. by simplify_eq.
  - intros Hne update_score. rewrite move_method_spec by done.
    by eexists _, _.
Qed.

Lemma simulate_move_spec (direction : Move) (self : BoardState) :
  well_formed self →
  simulate_move (move_method direction) self
  = Some (bool_decide (move_board direction (dim self) (board self)
                       ≠ board self), self).
Proof.
  intros Hwf. unfold simulate_move. rewrite move_method_spec by done.
  by destruct self.
Qed.

Lemma set_board_same (self : BoardState) : set_board (board self) self = self.
Proof. by destruct self. Qed.

Lemma move_possible_loop_spec (self : BoardState) (directions : list Move) :
  well_formed self →
  move_possible_loop (board self) (move_method <$> directions) self
  = Some (bool_decide (Exists (λ direction,
                         move_board direction (dim self) (board self)
                         ≠ board self) directions), self).
Proof.
  intros Hwf. induction directions as [|direction directions IH].
  - cbn [fmap list_fmap move_possible_loop]. rewrite set_board_same.
    by rewrite bool_decide_false by (intros H; inversion H).
  - cbn [fmap list_fmap move_possible_loop]. rewrite set_board_same.
    rewrite simulate_move_spec by done. cbn [mbind option_bind].
    destruct (decide (move_board direction (dim self) (board self)
                      ≠ board self)) as [Hd|Hd].
    + rewrite (bool_decide_true (_ ≠ _)) by done. rewrite set_board_same.
      by rewrite (bool_decide_true (Exists _ (_ :: _))) by by left.
    + rewrite (bool_decide_false (_ ≠ _)) by done.
      cbn [fmap list_fmap] in IH. rewrite IH. do 2 f_equal.
      apply bool_decide_ext. rewrite Exists_cons. tauto.
Qed.

(** C5: on a well-formed game, [move_possible()] returns, leaves the object
    as it found it (board, score and dimension), and answers [True] exactly
    when one of the four moves changes the board. *)
Theorem move_possible_spec (self : BoardState) :
  well_formed self →
  ∃ possible : bool,
    move_possible self = Some (possible, self)
    ∧ (possible = true ↔ ∃ direction, changes_board direction self).
Proof.
  intros Hwf. unfold move_possible.
  change [move_left; move_right; move_up; move_down]
    with (move_method <$> [MoveLeft; MoveRight; MoveUp; MoveDown]).
  rewrite move_possible_loop_spec by done. eexists. split; [done|].
  rewrite bool_decide_eq_true, Exists_exists. split.
  - intros (direction & _ & Hne). exists direction.
    by apply changes_board_spec.
  - intros (direction & Hch). exists direction.
    split; [destruct direction; repeat constructor|by apply changes_board_spec].
Qed.

Lemma valid_moves_step_spec (moves : list Move) (self : BoardState)
    (direction : Move) :
  well_formed self →
  valid_moves_step (moves, self) direction
  = Some (moves ++ filter (λ d, move_board d (dim self) (board self)
                                ≠ board self) [direction], self).
Proof.
  intros Hwf. unfold valid_moves_step. rewrite move_method_spec by done.
  cbn [mbind option_bind]. unfold set_board. cbn [board score dim].
  rewrite filter_cons, filter_nil.
  destruct self as [b sc d]. cbn [board score dim].
  case_bool_decide; case_decide; try done. by rewrite app_nil_r.
Qed.

Lemma valid_moves_filter (self : BoardState) :
  well_formed self →
  valid_moves self
  = Some (filter (λ d, move_board d (dim self) (board self) ≠ board self)
                 [MoveLeft; MoveRight; MoveUp; MoveDown], self).
Proof.
  intros Hwf. unfold valid_moves. cbn [for_each].
  rewrite !valid_moves_step_spec by done. cbn [mbind option_bind].
  rewrite !valid_moves_step_spec by done. cbn [mbind option_bind].
  rewrite !valid_moves_step_spec by done. cbn [mbind option_bind].
  rewrite !valid_moves_step_spec by done. cbn [mbind option_bind].
  do 2 f_equal. rewrite <- !app_assoc, <- !filter_app. done.
Qed.


Lemma move_board_square (direction : Move) (n : nat) (b : list (list Z)) :
  square n b → square n (move_board direction n b).
Proof.
  intros Hb. unfold move_board.
  by apply rotate_iter_square, board_left_square, rotate_iter_square.
Qed.

(** Two square boards differ exactly when they differ in a cell. *)
Lemma square_neq_cell (n : nat) (b1 b2 : list (list Z)) :
  square n b1 → square n b2 →
  b1 ≠ b2 ↔ ∃ i j, i < n ∧ j < n ∧ cell b1 i j ≠ cell b2 i j.
Proof.
  intros H1 H2. split.
  - intros Hne.
    destruct (decide (Exists (λ ij, cell b1 ij.1 ij.2 ≠ cell b2 ij.1 ij.2)
                        (list_prod (seq 0 n) (seq 0 n)))) as [Hex|Hall].
    + apply Exists_exists in Hex as ([i j] & Hin & Hij).
      apply list_elem_of_In, in_prod_iff in Hin as [Hi Hj].
      apply in_seq in Hi, Hj. exists i, j. simpl in Hij. split_and!; [lia..|done].
    + exfalso. apply Hne.
      rewrite (square_tabulate n b1 H1), (square_tabulate n b2 H2).
      apply tabulate_ext. intros i j Hi Hj.
      destruct (decide (cell b1 i j = cell b2 i j)) as [|Hij]; [done|].
      exfalso. apply Hall, Exists_exists. exists (i, j). split; [|done].
      apply list_elem_of_In, in_prod_iff. split; apply in_seq; lia.
  - intros (i & j & _ & _ & Hij) ->. by apply Hij.
Qed.

Lemma changes_cell_spec (direction : Move) (self : BoardState) :
  well_formed self → changes_cell direction self ↔ changes_board direction self.
Proof.
  intros Hwf. rewrite changes_board_spec by done.
  rewrite (square_neq_cell (dim self)) by (by try apply move_board_square).
  unfold changes_cell. split.
  - intros H. destruct (H false) as (moved & self' & Hmove & Hij).
    rewrite move_method_spec in Hmove by done. by simplify_eq.
  - intros Hij update_score. rewrite move_method_spec by done.
    by eexists _, _.
Qed.

Lemma game_2x2_well_formed : well_formed game_2x2.
Proof. split; [reflexivity|]. repeat constructor. Qed.

Lemma stuck_2x2_well_formed : well_formed stuck_2x2.
Proof. split; [reflexivity|]. repeat constructor. Qed.

Lemma game_4x4_well_formed : well_formed game_4x4.
Proof. split; [reflexivity|]. repeat constructor. Qed.

(** C8: on a well-formed snapshot, [valid_moves()] returns, leaves the
    snapshot as it found it (board, score, dimension and identity), and
    lists, each once, exactly the directions whose move changes the board,
    which are the directions whose move changes at least one cell. *)
Theorem valid_moves_spec (self : GameState) :
  well_formed (fields self) →
  ∃ moves : list Move,
    GameState_valid_moves self = Some (moves, self)
    ∧ NoDup moves
    ∧ ∀ direction,
        (direction ∈ moves ↔ changes_board direction (fields self))
        ∧ (direction ∈ moves ↔ changes_cell direction (fields self)).
Proof.
  intros Hwf. unfold GameState_valid_moves.
  rewrite valid_moves_filter by done. cbn [mbind option_bind].
  eexists. split; [by destruct self|]. split.
  - apply NoDup_filter.
    repeat (constructor;
            [by rewrite ?elem_of_cons, ?elem_of_nil; intuition discriminate|]).
    constructor.
  - intros direction.
    rewrite changes_cell_spec by done.
    rewrite list_elem_of_filter, changes_board_spec by done.
    assert (direction ∈ [MoveLeft; MoveRight; MoveUp; MoveDown])
      by (destruct direction; repeat constructor).
    tauto.
Qed.

Lemma valid_moves_spec_witness :
  well_formed (fields snapshot_2x2)
  ∧ ∃ moves : list Move,
      GameState_valid_moves snapshot_2x2 = Some (moves, snapshot_2x2)
      ∧ NoDup moves
      ∧ ∀ direction,
          (direction ∈ moves ↔ changes_board direction (fields snapshot_2x2))
          ∧ (direction ∈ moves ↔ changes_cell direction (fields snapshot_2x2)).
Proof.
  split; [exact game_2x2_well_formed|].
  apply (valid_moves_spec snapshot_2x2 game_2x2_well_formed).
Defined.

Example valid_moves_snapshot_2x2 :
  GameState_valid_moves snapshot_2x2
  = Some ([MoveLeft; MoveRight; MoveDown], snapshot_2x2).
Proof. vm_compute. reflexivity. Qed.

(** ** The sum of the cells *)

(** C10: on a well-formed object each of the four moves returns, with
    either value of the scoring flag, and leaves a board whose cells have
    the sum they had before. *)
Theorem moves_preserve_sum (update_score : bool) (self : BoardState) :
  well_formed self →
  ∀ move_func, move_func ∈ [move_left; move_right; move_up; move_down] →
    ∃ moved self',
      move_func update_score self = Some (moved, self')
      ∧ board_sum (board self') = board_sum (board self).
Proof.
  intros Hwf move_func Hin.
  assert (∃ direction, move_func = move_method direction) as [direction ->].
  { rewrite !elem_of_cons, elem_of_nil in Hin.
    destruct Hin as [->|[->|[->|[->|[]]]]];
      [by exists MoveLeft|by exists MoveRight|by exists MoveUp
      |by exists MoveDown]. }
  rewrite move_method_spec by done. eexists _, _. split; [done|].
  cbn [board]. unfold move_board.
  rewrite (board_sum_rotate_iter (dim self))
    by by apply board_left_square, rotate_iter_square.
  rewrite board_sum_board_left.
  by apply (board_sum_rotate_iter (dim self)).
Qed.

Lemma moves_preserve_sum_witness :
  well_formed game_4x4
  ∧ ∃ moved self',
      move_up true game_4x4 = Some (moved, self')
      ∧ board_sum (board self') = board_sum (board game_4x4).
Proof.
  split; [exact game_4x4_well_formed|].
  apply (moves_preserve_sum true game_4x4 game_4x4_well_formed).
  do 2 right. left.
Defined.

Lemma move_possible_spec_witness :
  well_formed stuck_2x2
  ∧ ∃ possible : bool,
      move_possible stuck_2x2 = Some (possible, stuck_2x2)
      ∧ (possible = true ↔ ∃ direction, changes_board direction stuck_2x2).
Proof.
  split; [exact stuck_2x2_well_formed|].
  apply (move_possible_spec stuck_2x2 stuck_2x2_well_formed).
Defined.

Example move_possible_stuck : move_possible stuck_2x2 = Some (false, stuck_2x2).
Proof. vm_compute. reflexivity. Qed.

Example move_possible_game : move_possible game_2x2 = Some (true, game_2x2).
Proof. vm_compute. reflexivity. Qed.

Example move_up_game_4x4 :
  move_up true game_4x4
  = Some (true,
          {| board := [[2; 2; 2; 2]; [8; 4; 0; 4]; [0; 0; 0; 2]; [0; 0; 0; 0]]%Z;
             score := 0; dim := 4 |}).
Proof. vm_compute. reflexivity. Qed.

Example move_left_game_4x4 :
  move_left true game_4x4
  = Some (true,
          {| board := [[4; 4; 0; 0]; [0; 0; 0; 0]; [8; 0; 0; 0]; [8; 2; 0; 0]]%Z;
             score := 16; dim := 4 |}).
Proof. vm_compute. reflexivity. Qed.

(** * Properties of the Q-learning agent *)

(** ** Keys of the table *)

Lemma features_eq_oid (s1 s2 : GameStateFeatures) :
  features_eq s1 s2 = true ↔ oid (state s1) = oid (state s2).
Proof. unfold features_eq, GameState_eq. apply bool_decide_eq_true. Qed.

Lemma key_eq_spec (k1 k2 : Key) :
  key_eq k1 k2 = true ↔ oid (state k1.1) = oid (state k2.1) ∧ k1.2 = k2.2.
Proof.
  unfold key_eq. by rewrite andb_true_iff, features_eq_oid, bool_decide_eq_true.
Qed.

Lemma key_eq_refl (k : Key) : key_eq k k = true.
Proof. by apply key_eq_spec. Qed.

Lemma key_eq_false_trans (k k' k2 : Key) :
  key_eq k' k = true → key_eq k k2 = false → key_eq k' k2 = false.
Proof.
  intros H1 H2. apply not_true_iff_false. intros H3.
  apply not_true_iff_false in H2. apply H2.
  apply key_eq_spec in H1 as [? ?]. apply key_eq_spec in H3 as [? ?].
  apply key_eq_spec. split; congruence.
Qed.

Lemma key_eq_true_trans (k k' k2 : Key) :
  key_eq k k2 = true → key_eq k' k = key_eq k' k2.
Proof.
  intros H. apply key_eq_spec in H as [Ho Ha].
  unfold key_eq, features_eq, GameState_eq. rewrite Ho, Ha. done.
Qed.

(** ** The dictionary *)

Lemma dict_get_proper (d : QTable) (k k2 : Key) :
  key_eq k k2 = true → dict_get d k = dict_get d k2.
Proof.
  intros H. induction d as [|[k' v'] d IH]; simpl; [done|].
  by rewrite (key_eq_true_trans k k' k2 H), IH.
Qed.

Lemma dict_get_set_eq (d : QTable) (k : Key) (v : Q * nat) :
  dict_get (dict_set d k v) k = Some v.
Proof.
  induction d as [|[k' v'] d IH]; simpl.
  - by rewrite key_eq_refl.
  - destruct (key_eq k' k) eqn:Hk; simpl; by rewrite Hk.
Qed.

Lemma dict_get_set_ne (d : QTable) (k k2 : Key) (v : Q * nat) :
  key_eq k k2 = false → dict_get (dict_set d k v) k2 = dict_get d k2.
Proof.
  intros Hne. induction d as [|[k' v'] d IH]; simpl.
  - by rewrite Hne.
  - destruct (key_eq k' k) eqn:Hk; simpl.
    + by rewrite (key_eq_false_trans k k' k2 Hk Hne).
    + by rewrite IH.
Qed.

(** ** [learn] and [updateCount] *)

Lemma learn_getQValue (self : QLearnAgent) (state : GameStateFeatures)
    (action : Move) (reward : Q) (nextState : GameStateFeatures) :
  getQValue (learn self state action reward nextState) state action
  = ((1 - alpha self) * getQValue self state action
     + alpha self * (reward + gamma self * maxQValue self nextState))%Q.
Proof. unfold getQValue at 1, learn. cbn [qTable set_qTable]. by rewrite dict_get_set_eq. Qed.

Lemma learn_getCount (self : QLearnAgent) (state : GameStateFeatures)
    (action : Move) (reward : Q) (nextState : GameStateFeatures) :
  getCount (learn self state action reward nextState) state action
  = getCount self state action + 1.
Proof. unfold getCount at 1, learn. cbn [qTable set_qTable]. by rewrite dict_get_set_eq. Qed.

Lemma learn_other (self : QLearnAgent) (state : GameStateFeatures)
    (action : Move) (reward : Q) (nextState state' : GameStateFeatures)
    (action' : Move) :
  key_eq (state, action) (state', action') = false →
  getQValue (learn self state action reward nextState) state' action'
  = getQValue self state' action'
  ∧ getCount (learn self state action reward nextState) state' action'
    = getCount self state' action'.
Proof.
  intros Hne. unfold getQValue, getCount, learn. cbn [qTable set_qTable].
  by rewrite dict_get_set_ne.
Qed.

Lemma updateCount_getCount (self : QLearnAgent) (state : GameStateFeatures)
    (action : Move) :
  getCount (updateCount self state action) state action
  = getCount self state action + 1
  ∧ getQValue (updateCount self state action) state action
    = getQValue self state action.
Proof.
  unfold getCount, getQValue, updateCount.
  destruct (default (0%Q, 0) (dict_get (qTable self) (state, action)))
    as [qValue times].
  cbn [qTable set_qTable]. by rewrite dict_get_set_eq.
Qed.

(** C2, as the code has it: [learn(state, action, reward, nextState)] stores
    for [(state, action)] the value
    [(1 - alpha) * Q(state, action)
     + alpha * (reward + gamma * maxQ(nextState))]
    and the visit count of [(state, action)] plus one (1 for a pair that was
    not in the table); the value and the count of every other pair stay. *)
Theorem learn_spec (self : QLearnAgent) (state : GameStateFeatures)
    (action : Move) (reward : Q) (nextState : GameStateFeatures) :
  let self' := learn self state action reward nextState in
  getQValue self' state action
  = ((1 - alpha self) * getQValue self state action
     + alpha self * (reward + gamma self * maxQValue self nextState))%Q
  ∧ getCount self' state action = getCount self state action + 1
  ∧ ∀ state' action',
      key_eq (state, action) (state', action') = false →
      getQValue self' state' action' = getQValue self state' action'
      ∧ getCount self' state' action' = getCount self state' action'.
Proof.
  split; [apply learn_getQValue|]. split; [apply learn_getCount|].
  intros state' action'. apply learn_other.
Qed.

(** C2, as stated, fails: [learn] on a fresh agent takes the visit count of
    the pair from 0 to 1. *)
Lemma learn_increments_count :
  getCount default_agent (mkFeatures snapshot_a) MoveLeft = 0
  ∧ getCount (learn default_agent (mkFeatures snapshot_a) MoveLeft 1
                    (mkFeatures snapshot_b))
             (mkFeatures snapshot_a) MoveLeft = 1
  ∧ ¬ (getCount (learn default_agent (mkFeatures snapshot_a) MoveLeft 1
                       (mkFeatures snapshot_b))
                (mkFeatures snapshot_a) MoveLeft
       = getCount default_agent (mkFeatures snapshot_a) MoveLeft).
Proof. split; [reflexivity|]. split; [reflexivity|]. vm_compute. lia. Qed.

(** C1 on two snapshots of the same board and score that are distinct
    objects: the wrappers are not equal, their hashes differ, and what
    [updateCount] and [learn] store under the one is not found under the
    other, which reads the defaults 0 and 0.0. *)
Lemma equal_snapshots_distinct_keys :
  fields snapshot_a = fields snapshot_b
  ∧ features_eq (mkFeatures snapshot_a) (mkFeatures snapshot_b) = false
  ∧ features_hash (mkFeatures snapshot_a)
    ≠ features_hash (mkFeatures snapshot_b)
  ∧ (let self := updateCount default_agent (mkFeatures snapshot_a) MoveLeft in
     getCount self (mkFeatures snapshot_a) MoveLeft = 1
     ∧ getCount self (mkFeatures snapshot_b) MoveLeft = 0)
  ∧ (let self := learn default_agent (mkFeatures snapshot_a) MoveLeft 5
                       (mkFeatures snapshot_a) in
     (getQValue self (mkFeatures snapshot_a) MoveLeft == 1)%Q
     ∧ getQValue self (mkFeatures snapshot_b) MoveLeft = 0%Q
     ∧ (maxQValue self (mkFeatures snapshot_a) == 1)%Q
     ∧ maxQValue self (mkFeatures snapshot_b) = 0%Q).
Proof.
  split; [reflexivity|]. split; [reflexivity|]. split; [discriminate|].
  split; [split; reflexivity|]. by vm_compute.
Qed.

(** ** [computeReward] *)

Lemma foldl_max_spec (xs : list Z) :
  ∀ x, let m := foldl Z.max x xs in
       m ∈ x :: xs ∧ ∀ y, y ∈ x :: xs → (y ≤ m)%Z.
Proof.
  induction xs as [|x' xs IH]; intros x; simpl.
  - split; [left|]. intros y Hy%list_elem_of_singleton. lia.
  - destruct (IH (Z.max x x')) as [Hin Hle]. split.
    + apply elem_of_cons in Hin as [Hm|Hm].
      * rewrite Hm. destruct (Z.max_spec x x') as [[_ ->]|[_ ->]];
          [right; left|left].
      * right. by right.
    + intros y Hy. apply elem_of_cons in Hy as [->|Hy].
      * specialize (Hle (Z.max x x')). pose proof (Hle ltac:(left)). lia.
      * apply elem_of_cons in Hy as [->|Hy].
        -- specialize (Hle (Z.max x x')). pose proof (Hle ltac:(left)). lia.
        -- apply Hle. by right.
Qed.

Lemma py_max_spec (xs : list Z) (m : Z) :
  py_max xs = Some m → m ∈ xs ∧ ∀ y, y ∈ xs → (y ≤ m)%Z.
Proof.
  destruct xs as [|x xs]; [done|]. simpl. intros [= <-].
  apply foldl_max_spec.
Qed.

Lemma py_max_is_Some (xs : list Z) : xs ≠ [] → is_Some (py_max xs).
Proof. destruct xs; [done|]. by eexists. Qed.

Lemma largest_in_corner_spec (s : GameState) :
  rewardable s →
  ∃ c : bool,
    largest_in_corner (mkFeatures s) = Some c
    ∧ (c = true ↔ max_in_corner (board (fields s))).
Proof.
  intros [Hne Hrows]. unfold largest_in_corner. cbn [state].
  set (b := board (fields s)) in *.
  destruct (mapM py_max b) as [maxima|] eqn:Hmaxima.
  2:{ exfalso. apply eq_None_not_Some in Hmaxima. apply Hmaxima.
      apply mapM_is_Some. eapply Forall_impl; [exact Hrows|].
      intros row Hrow. by apply py_max_is_Some. }
  apply mapM_Some in Hmaxima. cbn [mbind option_bind].
  destruct b as [|row0 b'] eqn:Hb; [done|].
  apply Forall_cons in Hrows as [Hrow0 _].
  destruct row0 as [|corner row0']; [done|].
  destruct (py_max maxima) as [max_tile|] eqn:Hmax.
  2:{ apply Forall2_length in Hmaxima. by destruct maxima. }
  cbn. eexists. split; [done|].
  apply py_max_spec in Hmax as [Hin Hle].
  rewrite bool_decide_eq_true. split.
  - intros ->. exists (corner :: row0'), corner. split_and!; [done..|].
    intros row x Hrow Hx.
    apply list_elem_of_lookup in Hrow as [i Hi].
    destruct (Forall2_lookup_l _ _ _ _ _ Hmaxima Hi) as (m & Hm & Hpm).
    apply py_max_spec in Hpm as [_ Hrowle].
    specialize (Hrowle x Hx).
    specialize (Hle m (list_elem_of_lookup_2 _ _ _ Hm)). lia.
  - intros (row0 & corner' & [= <-] & [= <-] & Hall).
    apply list_elem_of_lookup in Hin as [i Hi].
    destruct (Forall2_lookup_r _ _ _ _ _ Hmaxima Hi) as (row & Hrow & Hpm).
    apply py_max_spec in Hpm as [Hmrow _].
    pose proof (Hall row max_tile (list_elem_of_lookup_2 _ _ _ Hrow) Hmrow).
    destruct (Forall2_lookup_l _ _ _ 0 _ Hmaxima eq_refl) as (m0 & Hm0 & Hpm0).
    apply py_max_spec in Hpm0 as [_ Hrow0le].
    specialize (Hrow0le corner ltac:(left)).
    specialize (Hle m0 (list_elem_of_lookup_2 _ _ _ Hm0)). lia.
Qed.


(** [count_empty] counts the zero cells. *)
Lemma count_empty_zero_cells (b : list (list Z)) :
  count_empty b = zero_cells b.
Proof.
  unfold count_empty, zero_cells.
  induction b as [|row b IH]; [done|].
  cbn [concat fmap list_fmap sum_list sum_list_with].
  rewrite filter_app, length_app, IH. f_equal. unfold id.
  clear IH. induction row as [|x row IHrow]; [done|].
  rewrite filter_cons. cbn [count_occ].
  destruct (decide (x = 0%Z)) as [Hx|Hx], (Z.eq_dec x 0%Z) as [Hx'|Hx'];
    cbn [length]; congruence.
Qed.

(** Below 53 bits nothing is rounded. *)
Lemma round53_exact (h : Z) : (Z.abs h < 2 ^ 53)%Z → round53 h = h.
Proof.
  intros Hh. unfold round53. cbv zeta.
  by rewrite (proj2 (Z.ltb_lt _ _) Hh).
Qed.

Lemma float_limit_large : (2 ^ 53 < float_limit)%Z.
Proof. by vm_compute. Qed.

Lemma float_round_exact (h : Z) :
  (Z.abs h < 2 ^ 53)%Z → float_round h = Finite h.
Proof.
  intros Hh. unfold float_round. cbv zeta. rewrite (round53_exact h Hh).
  pose proof float_limit_large as Hlimit.
  assert (Z.abs h < float_limit)%Z as Hlt by (etrans; done).
  by rewrite (proj2 (Z.ltb_lt _ _) Hlt).
Qed.

Lemma int_to_float_exact (z : Z) :
  (Z.abs z < 2 ^ 52)%Z → int_to_float z = Some (Finite (2 * z)).
Proof.
  intros Hz. unfold int_to_float. rewrite float_round_exact; [done|].
  change (2 ^ 53)%Z with (2 * 2 ^ 52)%Z. lia.
Qed.

(** Within [exact_range] the reward in the arithmetic of Python is the reward
    in exact arithmetic, and the one raises when the other does. *)
Lemma computeReward_float_exact (startState endState : GameState) :
  exact_range startState endState →
  match computeReward startState endState with
  | Some exact =>
      ∃ reward value,
        computeReward_float startState endState = Some reward
        ∧ number_value reward = Some value
        ∧ (value == exact)%Q
  | None => computeReward_float startState endState = None
  end.
Proof.
  intros (Hstart & Hend & Hzeros). rewrite <- count_empty_zero_cells in Hzeros.
  unfold computeReward, computeReward_float.
  destruct (largest_in_corner (mkFeatures endState)) as [[|]|];
    cbn [mbind option_bind]; [| |done].
  - set (s := get_score startState) in *. set (e := get_score endState) in *.
    set (t := Z.of_nat (count_empty (board (fields endState)))) in *.
    assert (2 ^ 53 = 8 * 2 ^ 50)%Z as H53 by done.
    assert (2 ^ 52 = 4 * 2 ^ 50)%Z as H52 by done.
    rewrite (int_to_float_exact (e - s)) by lia. cbn [mbind option_bind].
    rewrite (int_to_float_exact s) by lia. cbn [mbind option_bind].
    rewrite (int_to_float_exact (t * 10)) by lia. cbn [mbind option_bind].
    cbn [float_half float_add].
    replace (2 * (e - s) / 2)%Z with (e - s)%Z
      by (rewrite Z.mul_comm, Z.div_mul; lia).
    rewrite (float_round_exact (2 * s + (e - s))) by lia.
    cbn [float_add].
    rewrite (float_round_exact (2 * (e - s) + (2 * s + (e - s)))) by lia.
    cbn [float_add].
    rewrite float_round_exact by lia.
    eexists _, _. split; [done|]. split; [done|].
    unfold Qeq, Qplus, Qmult, inject_Z. cbn [Qnum Qden]. lia.
  - eexists _, _. split; [done|]. split; [done|].
    rewrite !inject_Z_plus. ring.
Qed.

(** C3, as the code has it: for a start state and an end state whose board
    has a row and no empty row, with scores of magnitude at most 2^50 and
    ten times the number of zero cells at most 2^50, [computeReward] returns
    a number equal to
    [(end.score - start.score) + 10 * (number of zero cells of end's board)
     + cornerBonus],
    where [cornerBonus] is [start.score + 0.5 * (end.score - start.score)]
    when the largest tile of end's board is in cell (0, 0) and 0 otherwise.
    The reward in exact arithmetic that [learn] is given is the same
    number. *)
Theorem computeReward_spec (startState endState : GameState) :
  rewardable endState → exact_range startState endState →
  ∃ (reward : PyNumber) (value : Q) (in_corner : bool),
    computeReward_float startState endState = Some reward
    ∧ number_value reward = Some value
    ∧ (in_corner = true ↔ max_in_corner (board (fields endState)))
    ∧ (value == reward_by_spec startState endState in_corner)%Q
    ∧ ∃ exact,
        computeReward startState endState = Some exact ∧ (exact == value)%Q.
Proof.
  intros Hend Hrange.
  destruct (largest_in_corner_spec endState Hend) as (c & Hc & Hiff).
  pose proof (computeReward_float_exact startState endState Hrange) as Hfloat.
  unfold computeReward in Hfloat |- *. rewrite Hc in Hfloat |- *.
  cbn [mbind option_bind] in Hfloat |- *.
  destruct Hfloat as (reward & value & Hreward & Hvalue & Heq).
  exists reward, value, c. split; [done|]. split; [done|]. split; [done|].
  split.
  - rewrite Heq. unfold reward_by_spec.
    rewrite <- count_empty_zero_cells, inject_Z_mult. destruct c; ring.
  - eexists. split; [done|]. by symmetry.
Qed.

Lemma state_after_rewardable : rewardable state_after.
Proof. split; [discriminate|]. repeat constructor; discriminate. Qed.

Lemma state_after_exact_range : exact_range state_before state_after.
Proof. split_and!; by vm_compute. Qed.

Lemma computeReward_spec_witness :
  rewardable state_after ∧ exact_range state_before state_after
  ∧ ∃ (reward : PyNumber) (value : Q) (in_corner : bool),
      computeReward_float state_before state_after = Some reward
      ∧ number_value reward = Some value
      ∧ (in_corner = true ↔ max_in_corner (board (fields state_after)))
      ∧ (value == reward_by_spec state_before state_after in_corner)%Q
      ∧ ∃ exact,
          computeReward state_before state_after = Some exact
          ∧ (exact == value)%Q.
Proof.
  split; [exact state_after_rewardable|].
  split; [exact state_after_exact_range|].
  exact (computeReward_spec state_before state_after
           state_after_rewardable state_after_exact_range).
Defined.

Lemma state_huge_rewardable : rewardable state_huge.
Proof. split; [discriminate|]. repeat constructor; discriminate. Qed.

(** C3, as stated, fails beyond that range: from score 0 to score
    2^53 + 1, with the largest tile in the corner and one zero cell,
    [computeReward] returns 13510798882111498.0, where the stated sum is
    13510798882111499.5: the conversion of the score increase to a float
    rounds it to 2^53. *)
Lemma computeReward_rounds :
  rewardable state_huge
  ∧ max_in_corner (board (fields state_huge))
  ∧ ∃ reward value,
      computeReward_float state_zero state_huge = Some reward
      ∧ number_value reward = Some value
      ∧ (value == 13510798882111498)%Q
      ∧ (reward_by_spec state_zero state_huge true
         == 27021597764222999 # 2)%Q
      ∧ ¬ (value == reward_by_spec state_zero state_huge true)%Q.
Proof.
  split; [exact state_huge_rewardable|]. split.
  - destruct (largest_in_corner_spec state_huge state_huge_rewardable)
      as (c & Hc & Hiff).
    apply Hiff. vm_compute in Hc. by injection Hc.
  - exists (PyFloat (Finite 27021597764222996)), (27021597764222996 # 2)%Q.
    split; [by vm_compute|]. split; [done|]. split; [by vm_compute|].
    split; [by vm_compute|]. by vm_compute.
Qed.

Example computeReward_float_corner :
  computeReward_float state_before state_after = Some (PyFloat (Finite 40)).
Proof. by vm_compute. Qed.

Example computeReward_float_no_corner :
  computeReward_float state_before
    (GameState_init 2 [[0; 4]; [2; 4]]%Z 8 2)
  = Some (PyInt 14).
Proof. by vm_compute. Qed.

Example computeReward_float_overflow :
  computeReward_float state_zero state_overflow = None.
Proof. by vm_compute. Qed.

Example int_to_float_ties :
  int_to_float (2 ^ 53 + 1) = Some (Finite (2 * 2 ^ 53))
  ∧ int_to_float (2 ^ 53 + 3) = Some (Finite (2 * (2 ^ 53 + 4)))
  ∧ int_to_float (- (2 ^ 53 + 3)) = Some (Finite (- (2 * (2 ^ 53 + 4))))
  ∧ int_to_float (2 ^ 54 + 5) = Some (Finite (2 * (2 ^ 54 + 4)))
  ∧ int_to_float (2 ^ 1024 - 2 ^ 970 - 1)
    = Some (Finite (2 * (2 ^ 1024 - 2 ^ 971)))
  ∧ int_to_float (2 ^ 1024 - 2 ^ 970) = None.
Proof. split_and!; by vm_compute. Qed.

Example computeReward_corner :
  computeReward (GameState_init 1 [[2; 2]; [4; 0]]%Z 4 2)
                (GameState_init 2 [[4; 0]; [4; 2]]%Z 8 2)
  = Some (4 + (4 + (1 # 2) * 4) + 10)%Q.
Proof. reflexivity. Qed.

Example computeReward_no_corner :
  computeReward (GameState_init 1 [[2; 2]; [4; 0]]%Z 4 2)
                (GameState_init 2 [[0; 4]; [2; 4]]%Z 8 2)
  = Some (4 + 0 + 10)%Q.
Proof. reflexivity. Qed.

(** ** What the methods of the agent keep *)


Lemma random_random_lt_1 (rnd : Random) : (random_random rnd < 1)%Q.
Proof.
  unfold random_random, Qlt. cbn [Qnum Qden].
  pose proof (N.mod_upper_bound (random_bits rnd) (2 ^ 53)%N ltac:(done)).
  lia.
Qed.



Lemma computeReward_total (startState endState : GameState) :
  rewardable endState → ∃ reward, computeReward startState endState = Some reward.
Proof.
  intros Hend.
  destruct (largest_in_corner_spec endState Hend) as (c & Hc & _).
  unfold computeReward. rewrite Hc. by eexists.
Qed.


Lemma GameState_valid_moves_filter (self : GameState) :
  well_formed (fields self) →
  GameState_valid_moves self
  = Some (filter (λ d, move_board d (dim (fields self)) (board (fields self))
                       ≠ board (fields self))
                 [MoveLeft; MoveRight; MoveUp; MoveDown], self).
Proof.
  intros Hwf. unfold GameState_valid_moves.
  rewrite valid_moves_filter by done. by destruct self.
Qed.













Example final_default_agent :
  final default_agent snapshot_a
  = Some (mkQLearnAgent 0 0 (4 # 5) 30 0 1 [] [] [],
          [PrintLine "Game {} just ended!" [1%Z];
           PrintLine "Final score: {}" [0%Z];
           PrintLine "Training Done (turning off epsilon and alpha)" [];
           PrintLine "---------------------------------------------" []]).
Proof. reflexivity. Qed.

(** Before any call to [final] the agent explores, although its episode
    counter is not below [numTraining]. *)
Example default_agent_explores :
  (numTraining default_agent ≤ episodesSoFar default_agent)%Z
  ∧ explores default_agent (mkRandom 0 0 0 0) = true.
Proof. split; [vm_compute; discriminate|reflexivity]. Qed.

(** * The session *)

Lemma move_possible_exists (self : BoardState) :
  well_formed self →
  move_possible self
  = Some (bool_decide (Exists (λ direction,
                         move_board direction (dim self) (board self)
                         ≠ board self)
                       [MoveLeft; MoveRight; MoveUp; MoveDown]), self).
Proof.
  intros Hwf. unfold move_possible.
  change [move_left; move_right; move_up; move_down]
    with (move_method <$> [MoveLeft; MoveRight; MoveUp; MoveDown]).
  by apply move_possible_loop_spec.
Qed.

Lemma check_game_over_false (self : BoardState) (direction : Move) :
  well_formed self → changes_board direction self →
  check_game_over self = Some (false, self).
Proof.
  intros Hwf Hch. unfold check_game_over.
  rewrite move_possible_exists by done. cbn [mbind option_bind].
  rewrite bool_decide_true; [done|].
  apply Exists_exists. exists direction.
  split; [destruct direction; repeat constructor|].
  by apply changes_board_spec.
Qed.

(** C7: when [valid_moves()] returns the empty list, [get_move] of the
    Q-learning agent returns [None] and leaves the agent as it is. On
    [None] the body of the loop of [play] prints that no valid moves are
    available and breaks, with the game untouched; on a move that does not
    change the board it prints another line, that the agent returned an
    invalid move. A [play()] whose agent answers [None] at its first turn
    returns: the loop ends, the hook [final] of the agent is called and the
    game-over lines are printed. *)
Theorem no_moves_is_game_over :
  (∀ (self : QLearnAgent) (game_state game_state' : GameState) (rnd : Random),
     GameState_valid_moves game_state = Some ([], game_state') →
     get_move self game_state rnd = Some (None, self, game_state'))
  ∧ (∀ (A : Type) (w : Session A) (rnd : Random),
       play_choice w None rnd
       = Some (mkSession (game w) (goal w) (agent w) (next_id w)
                 (output w ++ [PrintLine no_valid_moves []]),
               false))
  ∧ (∀ (A : Type) (w : Session A) (direction : Move) (rnd : Random),
       well_formed (game w) → ¬ changes_board direction (game w) →
       ∃ g, play_choice w (Some direction) rnd
            = Some (mkSession g (goal w) (agent w) (next_id w)
                      (output w ++ [PrintLine invalid_move []]),
                    false)
            ∧ board g = board (game w))
  ∧ no_valid_moves ≠ invalid_move
  ∧ (∀ (A : Type) (H : Agent A) (w : Session A) (rnd : Random)
       (rnds : list Random) (agent' agent'' : A) (gs' : GameState)
       (lines : list Output),
       well_formed (game w) →
       (∃ direction, changes_board direction (game w)) →
       agent_get_move (agent w)
         (GameState_init (next_id w) (board (game w)) (score (game w))
                         (dim (game w))) rnd
       = Some (None, agent', gs') →
       agent_final agent'
         (GameState_init (S (next_id w)) (board (game w)) (score (game w))
                         (dim (game w)))
       = Some (agent'', lines) →
       play (rnd :: rnds) w
       = Some (mkSession (game w) (goal w) agent'' (S (S (next_id w)))
                 ((output w ++ [PrintLine no_valid_moves []]) ++ lines
                  ++ [PrintBoard (board (game w));
                      PrintLine "Game Over!" [];
                      PrintLine "Final Score: {}" [score (game w)]]))).
Proof.
  split_and!.
  - intros self gs gs' rnd Hmoves. unfold get_move. by rewrite Hmoves.
  - done.
  - intros A w direction rnd Hwf Hsame. unfold play_choice.
    rewrite move_method_spec by done. cbn [mbind option_bind].
    rewrite changes_board_spec in Hsame by done.
    apply dec_stable in Hsame.
    rewrite bool_decide_false by (intros Hne; by apply Hne).
    eexists. split; [done|]. done.
  - discriminate.
  - intros A H w rnd rnds agent' agent'' gs' lines Hwf [direction Hch]
      Hmove Hfinal.
    unfold play. cbn [play_loop].
    rewrite (check_game_over_false _ direction) by done.
    cbn [mbind option_bind game goal agent next_id output].
    unfold play_body. cbn [game goal agent next_id output].
    rewrite Hmove. cbn [mbind option_bind play_choice].
    cbn [game goal agent next_id output].
    rewrite Hfinal. done.
Qed.

Lemma stuck_2x2_no_move : ∀ direction, ¬ changes_board direction stuck_2x2.
Proof.
  intros direction. rewrite changes_board_spec by apply stuck_2x2_well_formed.
  intros Hne. apply Hne. by destruct direction; vm_compute.
Qed.

Lemma game_2x2_moves_left : changes_board MoveLeft game_2x2.
Proof.
  apply changes_board_spec; [apply game_2x2_well_formed|]. by vm_compute.
Qed.

Lemma no_moves_is_game_over_witness :
  (GameState_valid_moves stuck_snapshot = Some ([], stuck_snapshot)
   ∧ get_move default_agent stuck_snapshot zero_draws
     = Some (None, default_agent, stuck_snapshot))
  ∧ (well_formed (game stuck_session)
     ∧ ¬ changes_board MoveLeft (game stuck_session)
     ∧ ∃ g, play_choice stuck_session (Some MoveLeft) zero_draws
            = Some (mkSession g 2048 default_agent 0
                      [PrintLine invalid_move []], false)
            ∧ board g = board (game stuck_session))
  ∧ (well_formed (game resigning_session)
     ∧ (∃ direction, changes_board direction (game resigning_session))
     ∧ play [zero_draws] resigning_session
       = Some (mkSession game_2x2 2048 mkResigningAgent 2
                 [PrintLine no_valid_moves [];
                  PrintBoard [[2; 2]; [4; 0]]%Z;
                  PrintLine "Game Over!" [];
                  PrintLine "Final Score: {}" [0%Z]])).
Proof.
  destruct no_moves_is_game_over as (Hnone & _ & Hinvalid & _ & Hplay).
  assert (GameState_valid_moves stuck_snapshot = Some ([], stuck_snapshot))
    as Hstuck by (vm_compute; reflexivity).
  split; [|split].
  - split; [exact Hstuck|].
    exact (Hnone default_agent stuck_snapshot stuck_snapshot zero_draws Hstuck).
  - split; [exact stuck_2x2_well_formed|].
    split; [exact (stuck_2x2_no_move MoveLeft)|].
    exact (Hinvalid QLearnAgent stuck_session MoveLeft zero_draws
             stuck_2x2_well_formed (stuck_2x2_no_move MoveLeft)).
  - split; [exact game_2x2_well_formed|].
    assert (∃ direction, changes_board direction (game resigning_session))
      as Hmoves by (exists MoveLeft; exact game_2x2_moves_left).
    split; [exact Hmoves|].
    exact (Hplay ResigningAgent ResigningAgent_Agent resigning_session
             zero_draws [] mkResigningAgent mkResigningAgent _ []
             game_2x2_well_formed Hmoves eq_refl eq_refl).
Defined.

(** ** The invariant of a session: the board stays [dim] by [dim] *)

Lemma empty_cells_loop (self : BoardState) (idxs : list (nat * nat)) :
  well_formed self →
  Forall (λ rc, rc.1 < dim self ∧ rc.2 < dim self) idxs →
  ∀ cells, Forall (λ rc, rc.1 < dim self ∧ rc.2 < dim self) cells →
    ∃ cells',
      for_each
        (λ cells rc,
           row ← board self !! rc.1;
           cell ← row !! rc.2;
           Some (if bool_decide (cell = 0%Z) then cells ++ [rc] else cells))
        cells idxs = Some cells'
      ∧ Forall (λ rc, rc.1 < dim self ∧ rc.2 < dim self) cells'.
Proof.
  intros [Hlen Hrows]. induction 1 as [|rc idxs [Hr Hc] _ IH]; intros cells Hcells.
  - by exists cells.
  - cbn [for_each].
    destruct (lookup_lt_is_Some_2 (board self) rc.1) as [row Hrow]; [lia|].
    rewrite Hrow. cbn [mbind option_bind].
    assert (length row = dim self) as Hrowlen
      by (rewrite Forall_forall in Hrows;
          eapply Hrows, list_elem_of_lookup_2, Hrow).
    destruct (lookup_lt_is_Some_2 row rc.2) as [v Hv]; [lia|].
    rewrite Hv. cbn [mbind option_bind]. apply IH.
    case_bool_decide; [|done]. apply Forall_app. split; [done|].
    by repeat constructor.
Qed.

Lemma add_new_tile_well_formed (rnd : Random) (self : BoardState) :
  well_formed self →
  ∃ self', add_new_tile rnd self = Some self' ∧ well_formed self'
           ∧ dim self' = dim self ∧ score self' = score self.
Proof.
  intros Hwf. unfold add_new_tile, empty_cells.
  destruct (empty_cells_loop self
              (list_prod (range (dim self)) (range (dim self))) Hwf)
    with (cells := @nil (nat * nat)) as (cells & -> & Hcells); [|done|].
  { apply Forall_forall. intros [r c] Hin.
    apply list_elem_of_In, in_prod_iff in Hin as [Hr Hc].
    apply in_seq in Hr, Hc. simpl. lia. }
  cbn [mbind option_bind]. destruct cells as [|rc0 cells]; [by exists self|].
  destruct (random_choice (tile_index rnd) (rc0 :: cells)) as [rc|] eqn:Hrc.
  2:{ exfalso. unfold random_choice in Hrc. apply lookup_ge_None in Hrc.
      pose proof (Nat.mod_upper_bound (tile_index rnd)
                    (length (rc0 :: cells)) ltac:(done)). lia. }
  cbn [mbind option_bind].
  apply list_elem_of_lookup_2 in Hrc.
  rewrite Forall_forall in Hcells. destruct (Hcells rc Hrc) as [Hr Hc].
  destruct Hwf as [Hlen Hrows].
  destruct (lookup_lt_is_Some_2 (board self) rc.1) as [row Hrow]; [lia|].
  rewrite Hrow. cbn [mbind option_bind]. eexists. split; [done|].
  split; [|done]. unfold well_formed, square. cbn [set_board board dim].
  rewrite length_insert. split; [done|].
  apply Forall_insert; [done|]. rewrite length_insert.
  rewrite Forall_forall in Hrows. eapply Hrows, list_elem_of_lookup_2, Hrow.
Qed.

Lemma Game_init_well_formed (d : nat) (rnd1 rnd2 : Random) :
  ∃ self, Game_init d rnd1 rnd2 = Some self ∧ well_formed self
          ∧ dim self = d.
Proof.
  unfold Game_init, initialize_game.
  set (self0 := {| board := replicate d (replicate d 0%Z); score := 0%Z;
                   dim := d |}).
  assert (well_formed self0) as Hwf0.
  { split; cbn; [by rewrite length_replicate|].
    apply Forall_replicate. by rewrite length_replicate. }
  destruct (add_new_tile_well_formed rnd1 self0 Hwf0)
    as (self1 & -> & Hwf1 & Hd1 & _).
  cbn [mbind option_bind].
  destruct (add_new_tile_well_formed rnd2 self1 Hwf1)
    as (self2 & -> & Hwf2 & Hd2 & _).
  exists self2. split; [done|]. split; [done|]. by rewrite Hd2, Hd1.
Qed.

Lemma move_method_well_formed (direction : Move) (update_score : bool)
    (self : BoardState) :
  well_formed self →
  ∃ moved self',
    move_method direction update_score self = Some (moved, self')
    ∧ well_formed self' ∧ dim self' = dim self.
Proof.
  intros Hwf. rewrite move_method_spec by done. eexists _, _.
  split; [done|]. split; [|done]. by apply move_board_square.
Qed.

(** Every pass through the body of the loop of [play] that returns leaves
    the board [dim] by [dim]. *)
Lemma play_body_well_formed {A : Type} `{Agent A} (w w' : Session A)
    (rnd : Random) (continue : bool) :
  well_formed (game w) → play_body w rnd = Some (w', continue) →
  well_formed (game w').
Proof.
  intros Hwf. unfold play_body.
  destruct (agent_get_move _ _ _) as [[[move_choice agent'] gs']|]; [|done].
  cbn [mbind option_bind]. unfold play_choice. cbn [game goal agent next_id output].
  destruct move_choice as [direction|]; [|by intros [= <- _]].
  destruct (move_method_well_formed direction true (game w) Hwf)
    as (moved & g & -> & Hg & _).
  cbn [mbind option_bind]. destruct moved; [|by intros [= <- _]].
  destruct (add_new_tile_well_formed rnd g Hg) as (g' & -> & Hg' & _).
  cbn [mbind option_bind]. by destruct (check_win _ _); intros [= <- _].
Qed.

(** * Worked examples *)

Example rotate_board_2x2 :
  rotate_board [[1; 2]; [3; 4]]%Z = [[3; 1]; [4; 2]]%Z.
Proof. reflexivity. Qed.

Example rotate_board_ragged :
  rotate_board [[2; 4]; [8]]%Z = [[8; 2]]%Z.
Proof. reflexivity. Qed.

Example merge_2222 :
  merge true [2; 2; 2; 2]%Z 0 = Some ([4; 0; 4; 0]%Z, 8%Z).
Proof. reflexivity. Qed.

Example merge_zero_pairs : merge_events [2; 2; 0; 0]%Z = [0; 1; 2].
Proof. reflexivity. Qed.

(** A first turn in exploitation and the turn that follows it, on a new
    snapshot of the same board: the pair of the first turn is counted once
    by [updateCount] and once more by [learn]; nothing is found for the
    second snapshot, and its pair is entered afresh. *)
Example get_move_first_turn :
  get_move default_agent snapshot_a half_draw
  = Some (Some MoveLeft, after_first_turn, snapshot_a).
Proof. vm_compute. reflexivity. Qed.

Example get_move_second_turn :
  get_move after_first_turn snapshot_b half_draw
  = Some (Some MoveLeft,
          mkQLearnAgent (1 # 5) (1 # 20) (4 # 5) 30 0 0
            [((mkFeatures snapshot_a, MoveLeft), (250 # 125, 2));
             ((mkFeatures snapshot_b, MoveLeft), (0%Q, 1))]
            [snapshot_a; snapshot_b] [MoveLeft; MoveLeft],
          snapshot_b).
Proof. vm_compute. reflexivity. Qed.

(** Keys are told apart by the identity of the snapshot alone: what is
    stored for one object is not seen from another, whatever their boards
    and scores. *)
Lemma lookup_other_object (self : QLearnAgent) (s1 s2 : GameState)
    (a a' : Move) (r : Q) (n : GameStateFeatures) :
  oid s1 ≠ oid s2 →
  getQValue (learn self (mkFeatures s1) a r n) (mkFeatures s2) a'
  = getQValue self (mkFeatures s2) a'
  ∧ getCount (learn self (mkFeatures s1) a r n) (mkFeatures s2) a'
    = getCount self (mkFeatures s2) a'.
Proof.
  intros Hne. apply learn_other. apply not_true_iff_false.
  intros [Ho _]%key_eq_spec. by apply Hne.
Qed.

(** * Further properties of the board engine *)

(** X1: [compress] is idempotent, and leaves a row without zeros as it
    is. *)
Theorem compress_idempotent (row : list Z) :
  compress (compress row) = compress row
  ∧ (0%Z ∉ row → compress row = row).
Proof.
  split.
  - apply compress_fixed, compress_nonzero.
  - intros Hnz. apply compress_fixed, Forall_forall.
    intros x Hx ->. by apply Hnz.
Qed.

(** X2: the loop of [merge] never runs out of the row: it returns for every
    row, with a row of the same length and the same sum; the row it returns
    does not depend on the scoring flag, and without scoring the score is
    returned as it was. *)
Theorem merge_total (update_score : bool) (row : list Z) (sc : Z) :
  ∃ merged sc',
    merge update_score row sc = Some (merged, sc')
    ∧ length merged = length row
    ∧ row_sum merged = row_sum row
    ∧ (∃ sc'', merge (negb update_score) row sc = Some (merged, sc''))
    ∧ (update_score = false → sc' = sc).
Proof.
  rewrite !merge_spec. eexists _, _. split; [done|].
  split; [apply merge_rec_length|].
  split; [apply row_sum_merge_rec|].
  split; [by eexists|]. by intros ->.
Qed.

(** X3: [rotate_board] is the clockwise quarter turn of a square board:
    cell [(r, c)] of the result is cell [(n - 1 - c, r)] of the board, and
    the result is square again. *)
Theorem rotate_board_cells (n : nat) (b : list (list Z)) :
  square n b →
  square n (rotate_board b)
  ∧ ∀ r c, r < n → c < n →
      cell (rotate_board b) r c = cell b (n - 1 - c) r.
Proof.
  intros Hb. split; [by apply rotate_square|].
  intros r c Hr Hc. rewrite (rotate_tabulate n b Hb).
  by rewrite cell_tabulate.
Qed.

Lemma rotate_board_cells_witness :
  square 2 (board game_2x2)
  ∧ square 2 (rotate_board (board game_2x2))
  ∧ ∀ r c, r < 2 → c < 2 →
      cell (rotate_board (board game_2x2)) r c
      = cell (board game_2x2) (2 - 1 - c) r.
Proof.
  split; [exact game_2x2_well_formed|].
  exact (rotate_board_cells 2 (board game_2x2) game_2x2_well_formed).
Defined.

(** X4: four quarter turns bring a square board back, so that three turns
    undo one, and two turns undo two. *)
Theorem rotate_board_four_times (n : nat) (b : list (list Z)) :
  square n b →
  rotate_board (rotate_board (rotate_board (rotate_board b))) = b
  ∧ Nat.iter 3 rotate_board (rotate_board b) = b
  ∧ rotate_board (Nat.iter 3 rotate_board b) = b.
Proof.
  intros Hb. pose proof (rotate_four n b Hb) as H4. by repeat split.
Qed.

Lemma rotate_board_four_times_witness :
  square 4 (board game_4x4)
  ∧ rotate_board (rotate_board (rotate_board (rotate_board (board game_4x4))))
    = board game_4x4
  ∧ Nat.iter 3 rotate_board (rotate_board (board game_4x4)) = board game_4x4
  ∧ rotate_board (Nat.iter 3 rotate_board (board game_4x4)) = board game_4x4.
Proof.
  split; [exact game_4x4_well_formed|].
  exact (rotate_board_four_times 4 (board game_4x4) game_4x4_well_formed).
Defined.

(** X5: on a well-formed board [move_left] returns a well-formed board in
    which every row is packed to the left: its non-zero cells come first
    and zeros fill the rest. *)
Theorem move_left_packs (update_score : bool) (self : BoardState) :
  well_formed self →
  ∃ moved self',
    move_left update_score self = Some (moved, self')
    ∧ well_formed self'
    ∧ Forall left_packed (board self').
Proof.
  intros Hwf. rewrite move_left_spec by apply Hwf. eexists _, _.
  split; [done|]. split; [by apply board_left_square|].
  cbn [board]. unfold board_left. apply Forall_fmap, Forall_forall.
  intros row _. eexists _, _. split; [reflexivity|]. apply compress_nonzero.
Qed.

Lemma move_left_packs_witness :
  well_formed game_4x4
  ∧ ∃ moved self',
      move_left true game_4x4 = Some (moved, self')
      ∧ well_formed self'
      ∧ Forall left_packed (board self').
Proof.
  split; [exact game_4x4_well_formed|].
  exact (move_left_packs true game_4x4 game_4x4_well_formed).
Defined.

(** X6: on a well-formed object every move method returns; the flag it
    returns is [True] exactly when the board it leaves differs from the one
    it found; the board and the flag do not depend on [update_score], the
    board stays [dim] by [dim], and without scoring the score is kept. *)
Theorem move_flag (direction : Move) (self : BoardState) :
  well_formed self →
  ∃ (moved : bool) (b' : list (list Z)) (gain : Z),
    move_method direction true self
    = Some (moved, {| board := b'; score := (score self + gain)%Z;
                      dim := dim self |})
    ∧ move_method direction false self
      = Some (moved, {| board := b'; score := score self; dim := dim self |})
    ∧ (moved = true ↔ b' ≠ board self)
    ∧ square (dim self) b'.
Proof.
  intros Hwf. rewrite !move_method_spec by done. eexists _, _, _.
  split; [done|]. split; [done|].
  split; [apply bool_decide_eq_true|by apply move_board_square].
Qed.

Lemma move_flag_witness :
  well_formed game_2x2
  ∧ ∃ (moved : bool) (b' : list (list Z)) (gain : Z),
      move_method MoveUp true game_2x2
      = Some (moved, {| board := b'; score := (score game_2x2 + gain)%Z;
                        dim := dim game_2x2 |})
      ∧ move_method MoveUp false game_2x2
        = Some (moved, {| board := b'; score := score game_2x2;
                          dim := dim game_2x2 |})
      ∧ (moved = true ↔ b' ≠ board game_2x2)
      ∧ square (dim game_2x2) b'.
Proof.
  split; [exact game_2x2_well_formed|].
  exact (move_flag MoveUp game_2x2 game_2x2_well_formed).
Defined.

(** ** A move that changes nothing scores nothing *)

Lemma compress_app (l1 l2 : list Z) :
  compress (l1 ++ l2) = compress l1 ++ compress l2.
Proof. apply filter_app. Qed.

Lemma compress_zeros (k : nat) : compress (replicate k 0%Z) = [].
Proof.
  induction k as [|k IH]; [done|]. simpl. by rewrite compress_cons_zero.
Qed.

Lemma compress_row_left (d : nat) (row : list Z) :
  compress (row_left d row) = compress (merge_rec (compress row)).
Proof.
  unfold row_left. rewrite compress_app, compress_zeros, app_nil_r.
  apply compress_fixed, compress_nonzero.
Qed.

Lemma merge_from_shrinks (rest : list Z) :
  Forall (λ y, y ≠ 0%Z) rest →
  ∀ x,
    length (compress (merge_from x rest))
    ≤ (if decide (x = 0%Z) then 0 else 1) + length rest
    ∧ (length (compress (merge_from x rest))
       = (if decide (x = 0%Z) then 0 else 1) + length rest →
       gain_from x rest = 0%Z).
Proof.
  induction 1 as [|y rest Hy _ IH]; intros x; cbn [merge_from gain_from length].
  - destruct (decide (x = 0%Z)) as [->|Hx].
    + rewrite compress_cons_zero. by simpl.
    + rewrite compress_cons_nonzero by done. by simpl.
  - case_bool_decide as Hxy.
    + subst y. rewrite compress_cons_nonzero by lia.
      destruct (IH 0%Z) as [IHle _]. rewrite decide_True in IHle by done.
      rewrite decide_False by done. cbn [length]. split; lia.
    + destruct (IH y) as [IHle IHeq]. rewrite decide_False in IHle, IHeq by done.
      destruct (decide (x = 0%Z)) as [->|Hx].
      * rewrite compress_cons_zero. split; [lia|]. intros ?. apply IHeq. lia.
      * rewrite compress_cons_nonzero by done. cbn [length].
        split; [lia|]. intros ?. apply IHeq. lia.
Qed.

Lemma row_left_fixed_gain (d : nat) (row : list Z) :
  row_left d row = row → row_gain row = 0%Z.
Proof.
  intros Hfix. apply (f_equal compress) in Hfix.
  rewrite compress_row_left in Hfix. apply (f_equal length) in Hfix.
  unfold row_gain. pose proof (compress_nonzero row) as Hnz.
  destruct (compress row) as [|x rest]; [done|].
  apply Forall_cons in Hnz as [Hx Hrest]. cbn [merge_rec merge_gain] in *.
  destruct (merge_from_shrinks rest Hrest x) as [_ Heq].
  rewrite decide_False in Heq by done. apply Heq. by rewrite Hfix.
Qed.

Lemma fmap_fixed {A : Type} (f : A → A) (l : list A) :
  f <$> l = l → Forall (λ x, f x = x) l.
Proof.
  induction l as [|x l IH]; [done|]. rewrite fmap_cons.
  intros [= Hx Hl]. constructor; [done|by apply IH].
Qed.

Lemma board_left_fixed_gain (d : nat) (b : list (list Z)) :
  board_left d b = b → row_sum (row_gain <$> b) = 0%Z.
Proof.
  intros Hfix%fmap_fixed. induction Hfix as [|row b Hrow _ IH]; [done|].
  rewrite fmap_cons. simpl. rewrite IH, (row_left_fixed_gain d row Hrow). done.
Qed.

(** X7: a move that reports [False] has changed nothing: on a well-formed
    object the board, the score (also with scoring enabled) and the
    dimension are as before the call. *)
Theorem move_false_is_noop (direction : Move) (update_score : bool)
    (self self' : BoardState) :
  well_formed self →
  move_method direction update_score self = Some (false, self') →
  self' = self.
Proof.
  intros Hwf. rewrite move_method_spec by done. intros [= Hflag <-].
  apply bool_decide_eq_false in Hflag. apply dec_stable in Hflag.
  assert (move_gain direction (board self) = 0%Z) as Hgain.
  { unfold move_gain. apply (board_left_fixed_gain (dim self)).
    destruct (decide (board_left (dim self)
                (Nat.iter (turns_before direction) rotate_board (board self))
              = Nat.iter (turns_before direction) rotate_board (board self)))
      as [|Hne]; [done|].
    exfalso. by apply (move_board_changed direction (dim self)) in Hne. }
  rewrite Hflag, Hgain. destruct self, update_score; cbn; f_equal; lia.
Qed.

Lemma move_false_is_noop_witness :
  well_formed stuck_2x2
  ∧ move_method MoveLeft true stuck_2x2 = Some (false, stuck_2x2)
  ∧ stuck_2x2 = stuck_2x2.
Proof.
  assert (move_method MoveLeft true stuck_2x2 = Some (false, stuck_2x2))
    as Hmove by (vm_compute; reflexivity).
  split; [exact stuck_2x2_well_formed|]. split; [exact Hmove|].
  exact (move_false_is_noop MoveLeft true stuck_2x2 stuck_2x2
           stuck_2x2_well_formed Hmove).
Defined.

(** ** Boards of non-negative cells *)

Lemma cell_nonnegative (b : list (list Z)) (i j : nat) :
  nonnegative b → (0 ≤ cell b i j)%Z.
Proof.
  intros Hb. unfold cell. rewrite (nth_lookup b).
  destruct (b !! i) as [row|] eqn:Hrow; simpl.
  - rewrite nth_lookup. destruct (row !! j) as [v|] eqn:Hv; simpl; [|done].
    unfold nonnegative in Hb. rewrite Forall_forall in Hb.
    specialize (Hb row (list_elem_of_lookup_2 _ _ _ Hrow)).
    rewrite Forall_forall in Hb. apply Hb. by eapply list_elem_of_lookup_2.
  - by destruct j.
Qed.

Lemma tabulate_nonnegative (n : nat) (f : nat → nat → Z) :
  (∀ i j, 0 ≤ f i j)%Z → nonnegative (tabulate n f).
Proof.
  intros Hf. unfold nonnegative, tabulate.
  apply Forall_fmap, Forall_forall. intros i _. simpl.
  apply Forall_fmap, Forall_forall. intros j _. apply Hf.
Qed.

Lemma rotate_nonnegative (n k : nat) (b : list (list Z)) :
  square n b → nonnegative b → nonnegative (Nat.iter k rotate_board b).
Proof.
  intros Hb Hnn. induction k as [|k IH]; [done|]. cbn [Nat.iter nat_rect].
  rewrite (rotate_tabulate n) by by apply rotate_iter_square.
  apply tabulate_nonnegative. intros i j. by apply cell_nonnegative.
Qed.

Lemma merge_from_nonnegative (rest : list Z) :
  Forall (λ y, 0 ≤ y)%Z rest →
  ∀ x, (0 ≤ x)%Z →
    Forall (λ y, 0 ≤ y)%Z (merge_from x rest) ∧ (0 ≤ gain_from x rest)%Z.
Proof.
  induction 1 as [|y rest Hy _ IH]; intros x Hx; cbn [merge_from gain_from].
  - split; [by repeat constructor|done].
  - case_bool_decide.
    + destruct (IH 0%Z) as [? ?]; [done|]. split; [constructor; [lia|done]|lia].
    + destruct (IH y Hy) as [? ?]. split; [by constructor|done].
Qed.

Lemma compress_nonnegative (row : list Z) :
  Forall (λ y, 0 ≤ y)%Z row → Forall (λ y, 0 ≤ y)%Z (compress row).
Proof.
  rewrite !Forall_forall. intros Hrow x Hx.
  apply list_elem_of_filter in Hx as [_ Hx]. by apply Hrow.
Qed.

Lemma row_left_nonnegative (d : nat) (row : list Z) :
  Forall (λ y, 0 ≤ y)%Z row →
  Forall (λ y, 0 ≤ y)%Z (row_left d row) ∧ (0 ≤ row_gain row)%Z.
Proof.
  intros Hrow%compress_nonnegative. unfold row_left, row_gain.
  destruct (compress row) as [|x rest].
  - split; [|done]. simpl. apply Forall_replicate. lia.
  - apply Forall_cons in Hrow as [Hx Hrest]. cbn [merge_rec merge_gain].
    destruct (merge_from_nonnegative rest Hrest x Hx) as [Hm Hg].
    split; [|done]. apply Forall_app. split.
    + by apply compress_nonnegative.
    + apply Forall_replicate. lia.
Qed.

Lemma board_left_nonnegative (d : nat) (b : list (list Z)) :
  nonnegative b →
  nonnegative (board_left d b) ∧ (0 ≤ row_sum (row_gain <$> b))%Z.
Proof.
  unfold nonnegative, board_left.
  induction 1 as [|row b Hrow _ [IHb IHg]]; [done|].
  destruct (row_left_nonnegative d row Hrow) as [? ?].
  rewrite !fmap_cons. split; [by constructor|]. simpl. lia.
Qed.

(** X8: on a well-formed board without negative cells a move never lowers
    the score, whatever the direction and the scoring flag, and leaves a
    board without negative cells. *)
Theorem score_never_decreases (direction : Move) (update_score : bool)
    (self : BoardState) :
  well_formed self → nonnegative (board self) →
  ∃ moved self',
    move_method direction update_score self = Some (moved, self')
    ∧ (score self ≤ score self')%Z
    ∧ nonnegative (board self').
Proof.
  intros Hwf Hnn. rewrite move_method_spec by done. eexists _, _.
  split; [done|]. cbn [board score].
  pose proof (rotate_nonnegative (dim self) (turns_before direction)
                (board self) Hwf Hnn) as Hturned.
  destruct (board_left_nonnegative (dim self) _ Hturned) as [Hleft Hgain].
  split.
  - unfold move_gain. destruct update_score; lia.
  - unfold move_board. apply (rotate_nonnegative (dim self)); [|done].
    by apply board_left_square, rotate_iter_square.
Qed.

Lemma game_4x4_nonnegative : nonnegative (board game_4x4).
Proof. repeat constructor; done. Qed.

Lemma score_never_decreases_witness :
  well_formed game_4x4 ∧ nonnegative (board game_4x4)
  ∧ ∃ moved self',
      move_method MoveDown true game_4x4 = Some (moved, self')
      ∧ (score game_4x4 ≤ score self')%Z
      ∧ nonnegative (board self').
Proof.
  split; [exact game_4x4_well_formed|]. split; [exact game_4x4_nonnegative|].
  exact (score_never_decreases MoveDown true game_4x4 game_4x4_well_formed
           game_4x4_nonnegative).
Defined.

(** X9: the game is over exactly when no move is valid: on a well-formed
    snapshot [check_game_over()] answers [True] if and only if
    [valid_moves()] returns the empty list, and both leave the object as
    it was. *)
Theorem game_over_iff_no_valid_moves (self : GameState) :
  well_formed (fields self) →
  ∃ (over : bool) (moves : list Move),
    check_game_over (fields self) = Some (over, fields self)
    ∧ GameState_valid_moves self = Some (moves, self)
    ∧ (over = true ↔ moves = []).
Proof.
  intros Hwf. unfold check_game_over.
  rewrite move_possible_exists, GameState_valid_moves_filter by done.
  cbn [mbind option_bind]. eexists _, _. split; [done|]. split; [done|].
  rewrite negb_true_iff, bool_decide_eq_false, Exists_exists. split.
  - intros Hnone.
    destruct (filter _ _) as [|direction moves] eqn:Hmoves; [done|].
    exfalso. apply Hnone. exists direction.
    assert (direction ∈ direction :: moves) as Hin by left.
    rewrite <- Hmoves in Hin. apply list_elem_of_filter in Hin as [? ?].
    done.
  - intros Hnil (direction & Hin & Hne).
    by apply (filter_nil_not_elem_of _ _ direction Hnil Hne).
Qed.

Lemma game_over_iff_no_valid_moves_witness :
  well_formed (fields stuck_snapshot)
  ∧ ∃ (over : bool) (moves : list Move),
      check_game_over (fields stuck_snapshot)
      = Some (over, fields stuck_snapshot)
      ∧ GameState_valid_moves stuck_snapshot = Some (moves, stuck_snapshot)
      ∧ (over = true ↔ moves = []).
Proof.
  split; [exact stuck_2x2_well_formed|].
  exact (game_over_iff_no_valid_moves stuck_snapshot stuck_2x2_well_formed).
Defined.

(** ** The four moves on rows and columns *)

Lemma square_ext (n : nat) (b1 b2 : list (list Z)) :
  square n b1 → square n b2 →
  (∀ r c, r < n → c < n → cell b1 r c = cell b2 r c) → b1 = b2.
Proof.
  intros H1 H2 Hcells.
  rewrite (square_tabulate n b1 H1), (square_tabulate n b2 H2).
  by apply tabulate_ext.
Qed.

Lemma reverse_square (n : nat) (b : list (list Z)) :
  square n b → square n (reverse b).
Proof.
  intros [Hlen Hrows]. split; [by rewrite length_reverse|].
  by apply Forall_reverse.
Qed.

Lemma mirror_square (n : nat) (b : list (list Z)) :
  square n b → square n (reverse <$> b).
Proof.
  intros [Hlen Hrows]. split; [by rewrite length_fmap|].
  apply Forall_fmap. eapply Forall_impl; [exact Hrows|].
  intros row Hrow. simpl. by rewrite length_reverse.
Qed.

Lemma transpose_square (n : nat) (b : list (list Z)) :
  square n b → square n (transpose b).
Proof. intros [<- _]. apply tabulate_square. Qed.

Lemma cell_reverse (n : nat) (b : list (list Z)) (r c : nat) :
  square n b → r < n → cell (reverse b) r c = cell b (n - 1 - r) c.
Proof.
  intros [Hlen _] Hr. unfold cell. rewrite !(nth_lookup _ _ []).
  rewrite reverse_lookup by lia. do 3 f_equal. lia.
Qed.

Lemma cell_mirror (n : nat) (b : list (list Z)) (r c : nat) :
  square n b → r < n → c < n →
  cell (reverse <$> b) r c = cell b r (n - 1 - c).
Proof.
  intros [Hlen Hrows] Hr Hc. unfold cell. rewrite !(nth_lookup _ _ []).
  rewrite list_lookup_fmap.
  destruct (lookup_lt_is_Some_2 b r) as [row Hrow]; [lia|].
  rewrite Hrow. simpl.
  assert (length row = n) as Hrowlen
    by (rewrite Forall_forall in Hrows;
        eapply Hrows, list_elem_of_lookup_2, Hrow).
  rewrite !nth_lookup, reverse_lookup by lia. do 2 f_equal. lia.
Qed.

Lemma cell_transpose (n : nat) (b : list (list Z)) (r c : nat) :
  square n b → r < n → c < n → cell (transpose b) r c = cell b c r.
Proof.
  intros [<- _] Hr Hc. unfold transpose. by rewrite cell_tabulate.
Qed.

Lemma rotate_is_mirrored_transpose (n : nat) (b : list (list Z)) :
  square n b → rotate_board b = reverse <$> transpose b.
Proof.
  intros Hb. apply (square_ext n).
  - by apply rotate_square.
  - by apply mirror_square, transpose_square.
  - intros r c Hr Hc. rewrite (rotate_tabulate n b Hb), cell_tabulate by done.
    rewrite (cell_mirror n) by (by try apply transpose_square).
    by rewrite (cell_transpose n) by (done || lia).
Qed.

Lemma rotate_twice_is_half_turn (n : nat) (b : list (list Z)) :
  square n b → rotate_board (rotate_board b) = reverse (reverse <$> b).
Proof.
  intros Hb. apply (square_ext n).
  - by do 2 apply rotate_square.
  - by apply reverse_square, mirror_square.
  - intros r c Hr Hc.
    rewrite (rotate_rotate_tabulate n b Hb), cell_tabulate by done.
    rewrite (cell_reverse n) by (by try apply mirror_square).
    by rewrite (cell_mirror n) by (done || lia).
Qed.

Lemma rotate_thrice_is_flipped_transpose (n : nat) (b : list (list Z)) :
  square n b →
  rotate_board (rotate_board (rotate_board b)) = reverse (transpose b).
Proof.
  intros Hb. apply (square_ext n).
  - by do 3 apply rotate_square.
  - by apply reverse_square, transpose_square.
  - intros r c Hr Hc.
    rewrite (rotate_tabulate n (rotate_board (rotate_board b)))
      by by do 2 apply rotate_square.
    rewrite cell_tabulate by done.
    rewrite (rotate_rotate_tabulate n b Hb), cell_tabulate by lia.
    rewrite (cell_reverse n) by (by try apply transpose_square).
    rewrite (cell_transpose n) by (done || lia). f_equal; lia.
Qed.

Lemma transpose_reverse (n : nat) (b : list (list Z)) :
  square n b → transpose (reverse b) = reverse <$> transpose b.
Proof.
  intros Hb. apply (square_ext n).
  - by apply transpose_square, reverse_square.
  - by apply mirror_square, transpose_square.
  - intros r c Hr Hc.
    rewrite (cell_transpose n) by (by try apply reverse_square).
    rewrite (cell_reverse n) by done.
    rewrite (cell_mirror n) by (by try apply transpose_square).
    by rewrite (cell_transpose n) by (done || lia).
Qed.

Lemma transpose_mirror (n : nat) (b : list (list Z)) :
  square n b → transpose (reverse <$> b) = reverse (transpose b).
Proof.
  intros Hb. apply (square_ext n).
  - by apply transpose_square, mirror_square.
  - by apply reverse_square, transpose_square.
  - intros r c Hr Hc.
    rewrite (cell_transpose n) by (by try apply mirror_square).
    rewrite (cell_mirror n) by done.
    rewrite (cell_reverse n) by (by try apply transpose_square).
    by rewrite (cell_transpose n) by (done || lia).
Qed.

Lemma mirror_mirror (b : list (list Z)) : reverse <$> (reverse <$> b) = b.
Proof.
  rewrite <- list_fmap_compose. etrans; [|apply list_fmap_id].
  apply list_fmap_ext. intros _ row _. apply reverse_involutive.
Qed.

(** X10: what the four moves do to a well-formed board, without quarter
    turns: [move_left] moves every row to the left and [move_right] every
    row to the right (the left move of the mirrored row); [move_up] moves
    every column to the left end of the column, which is the top, and
    [move_down] every column to its right end, the bottom. *)
Theorem moves_on_rows_and_columns (direction : Move) (update_score : bool)
    (self : BoardState) :
  well_formed self →
  ∃ moved self',
    move_method direction update_score self = Some (moved, self')
    ∧ board self'
      = match direction with
        | MoveLeft => row_left (dim self) <$> board self
        | MoveRight => row_right (dim self) <$> board self
        | MoveUp =>
            transpose (row_left (dim self) <$> transpose (board self))
        | MoveDown =>
            transpose (row_right (dim self) <$> transpose (board self))
        end.
Proof.
  intros Hwf. rewrite move_method_spec by done. eexists _, _.
  split; [done|]. cbn [board]. unfold move_board, well_formed in *.
  set (n := dim self) in *. set (b := board self) in *.
  assert (square n (transpose b)) as Ht by by apply transpose_square.
  destruct direction; cbn [turns_before turns_after Nat.iter nat_rect].
  - done.
  - rewrite (rotate_twice_is_half_turn n b) by done.
    rewrite (rotate_twice_is_half_turn n)
      by by apply board_left_square, reverse_square, mirror_square.
    unfold board_left, row_right.
    rewrite fmap_reverse, fmap_reverse, reverse_involutive.
    by rewrite <- !list_fmap_compose.
  - rewrite (rotate_thrice_is_flipped_transpose n b) by done.
    rewrite (rotate_is_mirrored_transpose n)
      by by apply board_left_square, reverse_square.
    unfold board_left. rewrite fmap_reverse.
    rewrite (transpose_reverse n) by by apply (board_left_square n).
    apply mirror_mirror.
  - rewrite (rotate_is_mirrored_transpose n b) by done.
    rewrite (rotate_thrice_is_flipped_transpose n)
      by by apply board_left_square, mirror_square.
    rewrite <- (transpose_mirror n)
      by by apply board_left_square, mirror_square.
    unfold board_left, row_right. by rewrite <- !list_fmap_compose.
Qed.

Lemma moves_on_rows_and_columns_witness :
  well_formed game_4x4
  ∧ ∃ moved self',
      move_method MoveDown true game_4x4 = Some (moved, self')
      ∧ board self'
        = transpose (row_right (dim game_4x4)
                       <$> transpose (board game_4x4)).
Proof.
  split; [exact game_4x4_well_formed|].
  exact (moves_on_rows_and_columns MoveDown true game_4x4
           game_4x4_well_formed).
Defined.

Example move_down_game_4x4 :
  move_down true game_4x4
  = Some (true,
          {| board := [[0; 0; 0; 0]; [0; 0; 0; 2]; [2; 2; 0; 4]; [8; 4; 2; 2]]%Z;
             score := 0; dim := 4 |}).
Proof. vm_compute. reflexivity. Qed.

Example move_right_game_4x4 :
  move_right true game_4x4
  = Some (true,
          {| board := [[0; 0; 4; 4]; [0; 0; 0; 0]; [0; 0; 0; 8]; [0; 0; 8; 2]]%Z;
             score := 16; dim := 4 |}).
Proof. vm_compute. reflexivity. Qed.

(** * Further properties of the agents *)

Lemma valid_move_changes (self : GameState) (direction : Move) :
  well_formed (fields self) →
  direction ∈ filter (λ d, move_board d (dim (fields self))
                              (board (fields self)) ≠ board (fields self))
                     [MoveLeft; MoveRight; MoveUp; MoveDown]
  ↔ changes_board direction (fields self).
Proof.
  intros Hwf. rewrite list_elem_of_filter, changes_board_spec by done.
  assert (direction ∈ [MoveLeft; MoveRight; MoveUp; MoveDown])
    by (destruct direction; repeat constructor).
  tauto.
Qed.

Lemma no_valid_move (self : GameState) :
  well_formed (fields self) →
  filter (λ d, move_board d (dim (fields self)) (board (fields self))
               ≠ board (fields self))
         [MoveLeft; MoveRight; MoveUp; MoveDown] = [] →
  ∀ direction, ¬ changes_board direction (fields self).
Proof.
  intros Hwf Hnil direction Hch. apply valid_move_changes in Hch; [|done].
  rewrite Hnil in Hch. by apply elem_of_nil in Hch.
Qed.

Lemma random_choice_elem {A : Type} (index : nat) (x : A) (l : list A) :
  ∃ y, random_choice index (x :: l) = Some y ∧ y ∈ x :: l.
Proof.
  unfold random_choice.
  destruct (lookup_lt_is_Some_2 (x :: l) (index mod length (x :: l)))
    as [y Hy]; [by apply Nat.mod_upper_bound|].
  exists y. split; [done|]. by eapply list_elem_of_lookup_2.
Qed.

(** X11: on a well-formed snapshot the random agent answers with a
    direction whose move changes the board, or with [None] when no
    direction does; it leaves the snapshot as it was. *)
Theorem RandomAgent_moves_legally (self : RandomAgent)
    (game_state : GameState) (rnd : Random) :
  well_formed (fields game_state) →
  ∃ answer,
    RandomAgent_get_move self game_state rnd = Some (answer, self, game_state)
    ∧ match answer with
      | Some action => changes_board action (fields game_state)
      | None => ∀ direction, ¬ changes_board direction (fields game_state)
      end.
Proof.
  intros Hwf. unfold RandomAgent_get_move.
  rewrite GameState_valid_moves_filter by done. cbn [mbind option_bind].
  destruct (filter _ _) as [|move0 moves] eqn:Hmoves.
  - exists None. split; [done|]. by apply no_valid_move.
  - destruct (random_choice_elem (choice_index rnd) move0 moves)
      as (action & -> & Hin).
    exists (Some action). split; [done|].
    apply valid_move_changes; [done|]. by rewrite Hmoves.
Qed.

Lemma RandomAgent_moves_legally_witness :
  well_formed (fields snapshot_2x2)
  ∧ ∃ answer,
      RandomAgent_get_move mkRandomAgent snapshot_2x2 zero_draws
      = Some (answer, mkRandomAgent, snapshot_2x2)
      ∧ match answer with
        | Some action => changes_board action (fields snapshot_2x2)
        | None => ∀ direction, ¬ changes_board direction (fields snapshot_2x2)
        end.
Proof.
  split; [exact game_2x2_well_formed|].
  exact (RandomAgent_moves_legally mkRandomAgent snapshot_2x2 zero_draws
           game_2x2_well_formed).
Defined.

(** X12: on a well-formed snapshot the priority agent answers with the
    first direction, in the order left, down, right, up, whose move changes
    the board, and with [None] when there is none. *)
Theorem LeftAgent_priority (self : LeftAgent) (game_state : GameState)
    (rnd : Random) :
  well_formed (fields game_state) →
  ∃ answer,
    LeftAgent_get_move self game_state rnd = Some (answer, self, game_state)
    ∧ (changes_board MoveLeft (fields game_state) → answer = Some MoveLeft)
    ∧ (¬ changes_board MoveLeft (fields game_state) →
       changes_board MoveDown (fields game_state) → answer = Some MoveDown)
    ∧ (¬ changes_board MoveLeft (fields game_state) →
       ¬ changes_board MoveDown (fields game_state) →
       changes_board MoveRight (fields game_state) →
       answer = Some MoveRight)
    ∧ (¬ changes_board MoveLeft (fields game_state) →
       ¬ changes_board MoveDown (fields game_state) →
       ¬ changes_board MoveRight (fields game_state) →
       changes_board MoveUp (fields game_state) → answer = Some MoveUp)
    ∧ ((∀ direction, ¬ changes_board direction (fields game_state)) →
       answer = None).
Proof.
  intros Hwf. unfold LeftAgent_get_move.
  rewrite GameState_valid_moves_filter by done. cbn [mbind option_bind].
  pose proof (valid_move_changes game_state) as Hiff.
  destruct (filter _ _) as [|move0 moves] eqn:Hmoves.
  - exists None. split; [done|].
    assert (∀ d, ¬ changes_board d (fields game_state)) as Hnone.
    { intros d Hd. apply Hiff in Hd; [|done]. by apply elem_of_nil in Hd. }
    split_and!; try done; intros; exfalso; by eapply Hnone.
  - assert (changes_board move0 (fields game_state)) as H0
      by (apply Hiff; [done|left]).
    pose proof (Hiff MoveLeft Hwf) as HL. pose proof (Hiff MoveDown Hwf) as HD.
    pose proof (Hiff MoveRight Hwf) as HR. clear Hiff Hmoves.
    eexists. split; [done|].
    repeat case_bool_decide;
      split_and!; intros; first
        [ done
        | exfalso; tauto
        | exfalso;
          match goal with
          | Hnone : ∀ d, ¬ changes_board d _ |- _ => exact (Hnone _ H0)
          end ].
Qed.

Lemma LeftAgent_priority_witness :
  well_formed (fields snapshot_2x2)
  ∧ ∃ answer,
      LeftAgent_get_move mkLeftAgent snapshot_2x2 zero_draws
      = Some (answer, mkLeftAgent, snapshot_2x2)
      ∧ (changes_board MoveLeft (fields snapshot_2x2) →
         answer = Some MoveLeft)
      ∧ (¬ changes_board MoveLeft (fields snapshot_2x2) →
         changes_board MoveDown (fields snapshot_2x2) →
         answer = Some MoveDown)
      ∧ (¬ changes_board MoveLeft (fields snapshot_2x2) →
         ¬ changes_board MoveDown (fields snapshot_2x2) →
         changes_board MoveRight (fields snapshot_2x2) →
         answer = Some MoveRight)
      ∧ (¬ changes_board MoveLeft (fields snapshot_2x2) →
         ¬ changes_board MoveDown (fields snapshot_2x2) →
         ¬ changes_board MoveRight (fields snapshot_2x2) →
         changes_board MoveUp (fields snapshot_2x2) → answer = Some MoveUp)
      ∧ ((∀ direction, ¬ changes_board direction (fields snapshot_2x2)) →
         answer = None).
Proof.
  split; [exact game_2x2_well_formed|].
  exact (LeftAgent_priority mkLeftAgent snapshot_2x2 zero_draws
           game_2x2_well_formed).
Defined.

(** ** The choice of [get_move] *)

Lemma foldl_best_spec (items : list (Move * Q)) :
  ∀ (pre : list (Move * Q)) (best : Move * Q) (ib : nat),
    pre !! ib = Some best →
    (∀ kv, kv ∈ pre → (kv.2 <= best.2)%Q) →
    (∀ j kv, j < ib → pre !! j = Some kv → (kv.2 < best.2)%Q) →
    let r := foldl (λ best it : Move * Q,
                      if Qlt_le_dec best.2 it.2 then it else best)
                   best items in
    ∃ i, (pre ++ items) !! i = Some r
         ∧ (∀ kv, kv ∈ pre ++ items → (kv.2 <= r.2)%Q)
         ∧ (∀ j kv, j < i → (pre ++ items) !! j = Some kv → (kv.2 < r.2)%Q).
Proof.
  induction items as [|it items IH]; intros pre best ib Hbest Hle Hlt.
  - simpl. exists ib. rewrite app_nil_r. by split_and!.
  - cbn [foldl]. rewrite (cons_middle it pre items), app_assoc.
    destruct (Qlt_le_dec best.2 it.2) as [Hlt'|Hle'].
    + apply (IH (pre ++ [it]) it (length pre)).
      * by apply list_lookup_middle.
      * intros kv [Hin|Hin%list_elem_of_singleton]%elem_of_app.
        -- apply Qlt_le_weak. eapply Qle_lt_trans; [by apply Hle|done].
        -- subst kv. apply Qle_refl.
      * intros j kv Hj Hkv. rewrite lookup_app_l in Hkv by done.
        eapply Qle_lt_trans; [|exact Hlt'].
        apply Hle. by eapply list_elem_of_lookup_2.
    + apply (IH (pre ++ [it]) best ib).
      * rewrite lookup_app_l; [done|]. by eapply lookup_lt_Some.
      * intros kv [Hin|Hin%list_elem_of_singleton]%elem_of_app.
        -- by apply Hle.
        -- by subst kv.
      * intros j kv Hj Hkv. apply (Hlt j); [done|].
        rewrite lookup_app_l in Hkv; [done|].
        apply lookup_lt_Some in Hbest. lia.
Qed.

Lemma py_max_key_spec (item : Move * Q) (items : list (Move * Q)) :
  ∃ i v,
    (item :: items) !! i = Some (py_max_key item items, v)
    ∧ (∀ kv, kv ∈ item :: items → (kv.2 <= v)%Q)
    ∧ (∀ j kv, j < i → (item :: items) !! j = Some kv → (kv.2 < v)%Q).
Proof.
  destruct (foldl_best_spec items [item] item 0) as (i & Hi & Hle & Hlt).
  - done.
  - intros kv Hkv%list_elem_of_singleton. subst kv. apply Qle_refl.
  - intros j kv Hj. lia.
  - unfold py_max_key. simpl in Hi, Hle, Hlt.
    destruct (foldl _ item items) as [r v]. by exists i, v.
Qed.



(** X14: [max(adjustedQValues, key=adjustedQValues.get)], over the moves in
    their order and whatever value each move has, returns a move of largest
    value, and every move listed before it has a strictly smaller value:
    among equal values the first move wins. *)
Theorem py_max_key_first_maximum (value : Move → Q) (move0 : Move)
    (moves' : list Move) :
  let moves := move0 :: moves' in
  let adjusted := λ action : Move, (action, value action) in
  let action := py_max_key (adjusted move0) (adjusted <$> moves') in
  ∃ i,
    moves !! i = Some action
    ∧ (∀ d, d ∈ moves → (value d <= value action)%Q)
    ∧ (∀ j d, j < i → moves !! j = Some d → (value d < value action)%Q).
Proof.
  intros moves adjusted action.
  destruct (py_max_key_spec (adjusted move0) (adjusted <$> moves'))
    as (i & v & Hi & Hle & Hlt).
  change (adjusted move0 :: (adjusted <$> moves'))
    with (adjusted <$> moves) in Hi, Hle, Hlt.
  fold action in Hi.
  rewrite list_lookup_fmap in Hi.
  destruct (moves !! i) as [action'|] eqn:Haction; [|done].
  cbn in Hi.
  assert (action' = action ∧ value action' = v) as [Ha Hv]
    by (unfold adjusted in Hi; by injection Hi).
  subst action' v. exists i. split; [done|]. split.
  - intros d Hd. apply (Hle (adjusted d)). by apply list_elem_of_fmap_2.
  - intros j d Hj Hd. apply (Hlt j (adjusted d) Hj).
    by rewrite list_lookup_fmap, Hd.
Qed.

Example py_max_key_tie :
  py_max_key (MoveLeft, 3%Q) [(MoveRight, 5%Q); (MoveUp, (10 # 2)%Q)]
  = MoveRight.
Proof. reflexivity. Qed.

(** ** The table only grows *)

Lemma dict_get_set_same (d : QTable) (k k2 : Key) (v : Q * nat) :
  key_eq k k2 = true → dict_get (dict_set d k v) k2 = Some v.
Proof.
  intros Hk. rewrite <- (dict_get_proper _ k k2 Hk). apply dict_get_set_eq.
Qed.

Lemma dict_set_extends (d : QTable) (k : Key) (v : Q * nat) :
  extends d (dict_set d k v).
Proof.
  split.
  - intros k2 Hk2. destruct (key_eq k k2) eqn:Hk.
    + by rewrite dict_get_set_same.
    + by rewrite dict_get_set_ne.
  - induction d as [|[k' v'] d IH]; simpl; [lia|].
    destruct (key_eq k' k); simpl; lia.
Qed.

Lemma extends_refl (d : QTable) : extends d d.
Proof. by split. Qed.

Lemma extends_trans (d1 d2 d3 : QTable) :
  extends d1 d2 → extends d2 d3 → extends d1 d3.
Proof. intros [H1 L1] [H2 L2]. split; [auto|lia]. Qed.

Lemma learn_pending_extends (self self' : QLearnAgent) (current : GameState) :
  learn_pending self current = Some self' →
  extends (qTable self) (qTable self').
Proof.
  unfold learn_pending. intros H.
  destruct (last (previousState self)) as [prev|];
    [|simplify_eq; apply extends_refl].
  destruct (last (previousAction self)) as [act|]; [|done].
  cbn [mbind option_bind] in H.
  destruct (computeReward prev current) as [reward|]; [|done].
  cbn [mbind option_bind] in H. simplify_eq. apply dict_set_extends.
Qed.

Lemma updateCount_extends (self : QLearnAgent) (state : GameStateFeatures)
    (action : Move) :
  extends (qTable self) (qTable (updateCount self state action)).
Proof.
  unfold updateCount. destruct (default _ _). apply dict_set_extends.
Qed.

Lemma call_extends (self self' : QLearnAgent) (c : Call) :
  call self c = Some self' → extends (qTable self) (qTable self').
Proof.
  destruct c as [gs rnd|s|s a r n|s a]; cbn [call].
  - unfold get_move.
    destruct (GameState_valid_moves gs) as [[moves gs']|]; [|done].
    cbn [mbind option_bind].
    destruct moves as [|move0 moves']; [intros [= <-]; apply extends_refl|].
    destruct (learn_pending self gs') as [self1|] eqn:Hself1; [|done].
    cbn [mbind option_bind].
    destruct (if explores self1 rnd then _ else _) as [action|]; [|done].
    cbn [mbind option_bind]. intros [= <-]. cbn [push_previous qTable].
    eapply extends_trans; [by eapply learn_pending_extends|].
    apply updateCount_extends.
  - unfold final.
    destruct (learn_pending self s) as [self1|] eqn:Hself1; [|done].
    cbn [mbind option_bind]. apply learn_pending_extends in Hself1.
    case_bool_decide; intros [= <-]; done.
  - intros [= <-]. apply dict_set_extends.
  - intros [= <-]. apply updateCount_extends.
Qed.

(** X15: no call on the agent removes an entry of the table: after any
    sequence of calls of [get_move], [final], [learn] and [updateCount] that
    returns, every key that had an entry still has one, and the table has
    at least as many items. *)
Theorem table_only_grows (cs : list Call) (self self' : QLearnAgent) :
  calls self cs = Some self' → extends (qTable self) (qTable self').
Proof.
  unfold calls. revert self.
  induction cs as [|c cs IH]; intros self; cbn [for_each].
  - intros [= <-]. apply extends_refl.
  - destruct (call self c) as [self1|] eqn:Hcall; [|done].
    cbn [mbind option_bind]. intros Hrest.
    eapply extends_trans; [by eapply call_extends|by apply IH].
Qed.

Lemma table_only_grows_witness :
  calls default_agent [CallGetMove snapshot_a half_draw;
                       CallGetMove snapshot_b half_draw;
                       CallFinal snapshot_a]
  = Some (mkQLearnAgent 0 0 (4 # 5) 30 0 1
            [((mkFeatures snapshot_a, MoveLeft), (250 # 125, 2));
             ((mkFeatures snapshot_b, MoveLeft), (36250 # 15625, 2))]
            [] [])
  ∧ extends (qTable default_agent)
      [((mkFeatures snapshot_a, MoveLeft), (250 # 125, 2));
       ((mkFeatures snapshot_b, MoveLeft), (36250 # 15625, 2))].
Proof.
  assert (calls default_agent [CallGetMove snapshot_a half_draw;
                               CallGetMove snapshot_b half_draw;
                               CallFinal snapshot_a]
          = Some (mkQLearnAgent 0 0 (4 # 5) 30 0 1
                    [((mkFeatures snapshot_a, MoveLeft), (250 # 125, 2));
                     ((mkFeatures snapshot_b, MoveLeft), (36250 # 15625, 2))]
                    [] [])) as Hcalls by (vm_compute; reflexivity).
  split; [exact Hcalls|].
  exact (table_only_grows _ _ _ Hcalls).
Defined.

(** ** [maxQValue] *)

Lemma py_max_Q_upper (xs : list Q) :
  ∀ x y, y ∈ x :: xs → (y <= py_max_Q x xs)%Q.
Proof.
  unfold py_max_Q. induction xs as [|x' xs IH]; intros x y Hy; cbn [foldl].
  - apply list_elem_of_singleton in Hy as ->. apply Qle_refl.
  - destruct (Qlt_le_dec x x') as [Hlt|Hle].
    + apply elem_of_cons in Hy as [->|Hy]; [|by apply IH].
      eapply Qle_trans; [apply Qlt_le_weak, Hlt|]. apply IH. left.
    + apply elem_of_cons in Hy as [->|Hy]; [apply IH; left|].
      apply elem_of_cons in Hy as [->|Hy].
      * eapply Qle_trans; [exact Hle|]. apply IH. left.
      * apply IH. by right.
Qed.

Lemma dict_get_elem (d : QTable) (k : Key) (v : Q * nat) :
  dict_get d k = Some v → ∃ k', (k', v) ∈ d ∧ key_eq k' k = true.
Proof.
  induction d as [|[k' v'] d IH]; simpl; [done|].
  destruct (key_eq k' k) eqn:Hk.
  - intros [= ->]. exists k'. split; [left|done].
  - intros (k'' & Hin & Hk'')%IH. exists k''. split; [by right|done].
Qed.

Lemma dict_elem_get (d : QTable) (k k' : Key) (v : Q * nat) :
  (k', v) ∈ d → key_eq k' k = true → is_Some (dict_get d k).
Proof.
  induction d as [|[k0 v0] d IH]; intros Hin Hk.
  - by apply elem_of_nil in Hin.
  - simpl. destruct (key_eq k0 k) eqn:Hk0; [done|].
    apply elem_of_cons in Hin as [[= -> ->]|Hin]; [congruence|by apply IH].
Qed.

(** X16: [maxQValue(state)] is at least the stored value of every action
    that has an entry for the state, and it is 0 when no action has one. *)
Theorem maxQValue_bounds (self : QLearnAgent) (state : GameStateFeatures) :
  (∀ action q n,
     dict_get (qTable self) (state, action) = Some (q, n) →
     (q <= maxQValue self state)%Q)
  ∧ ((∀ action, dict_get (qTable self) (state, action) = None) →
     maxQValue self state = 0%Q).
Proof.
  unfold maxQValue. split.
  - intros action q n (k' & Hin & Hk)%dict_get_elem.
    apply key_eq_spec in Hk as [Hoid _].
    assert (q ∈ (λ item : Key * (Q * nat), item.2.1)
                  <$> filter (λ item : Key * (Q * nat),
                                features_eq item.1.1 state = true)
                             (qTable self)) as Hq.
    { apply list_elem_of_fmap. exists (k', (q, n)). split; [done|].
      apply list_elem_of_filter. split; [|done]. by apply features_eq_oid. }
    destruct ((λ item : Key * (Q * nat), item.2.1)
                <$> filter (λ item : Key * (Q * nat),
                              features_eq item.1.1 state = true)
                           (qTable self)) as [|q0 qs];
      [by apply elem_of_nil in Hq|].
    by apply py_max_Q_upper.
  - intros Hnone.
    destruct (filter _ (qTable self)) as [|[k' v] items] eqn:Hitems; [done|].
    exfalso.
    assert ((k', v) ∈ filter (λ item : Key * (Q * nat),
                                features_eq item.1.1 state = true)
                             (qTable self)) as Hin by (rewrite Hitems; left).
    apply list_elem_of_filter in Hin as [Hfeq Hin]. simpl in Hfeq.
    destruct (dict_elem_get (qTable self) (state, k'.2) k' v Hin) as [v' Hv'].
    + apply key_eq_spec. split; [by apply features_eq_oid|done].
    + by rewrite Hnone in Hv'.
Qed.

(** ** [explorationFn] *)

Lemma exploration_bonus (counts : nat) :
  (10 / inject_Z (Z.of_nat counts + 1) == 10 # Pos.of_succ_nat counts)%Q.
Proof.
  replace (Z.of_nat counts + 1)%Z with (Z.pos (Pos.of_succ_nat counts)) by lia.
  unfold Qdiv, Qinv, inject_Z, Qeq. simpl. lia.
Qed.

(** X17: the exploration value of an action is never below its utility, it
    does not grow when the count grows, and it does not shrink when the
    utility grows. *)
Theorem explorationFn_monotone (utility utility' : Q) (counts counts' : nat) :
  (utility <= explorationFn utility counts)%Q
  ∧ (counts ≤ counts' →
     (explorationFn utility counts' <= explorationFn utility counts)%Q)
  ∧ ((utility <= utility')%Q →
     (explorationFn utility counts <= explorationFn utility' counts)%Q).
Proof.
  unfold explorationFn. rewrite !exploration_bonus. split_and!.
  - rewrite <- (Qplus_0_r utility) at 1. apply Qplus_le_r. done.
  - intros Hle. apply Qplus_le_r. unfold Qle. simpl. lia.
  - intros Hle. by apply Qplus_le_l.
Qed.

(** ** [updateCount] *)

(** X18: [updateCount(state, action)] adds one to the visit count of the
    pair and keeps its value, entering the pair with value 0 and count 1
    when it is new; the entries of all other pairs stay. *)
Theorem updateCount_spec (self : QLearnAgent) (state : GameStateFeatures)
    (action : Move) :
  let self' := updateCount self state action in
  getCount self' state action = getCount self state action + 1
  ∧ getQValue self' state action = getQValue self state action
  ∧ (dict_get (qTable self) (state, action) = None →
     dict_get (qTable self') (state, action) = Some (0%Q, 1))
  ∧ ∀ state' action',
      key_eq (state, action) (state', action') = false →
      dict_get (qTable self') (state', action')
      = dict_get (qTable self) (state', action').
Proof.
  destruct (updateCount_getCount self state action) as [Hc Hq].
  split; [done|]. split; [done|]. unfold updateCount. split.
  - intros ->. cbn [default set_qTable qTable]. apply dict_get_set_eq.
  - intros state' action' Hne.
    destruct (default _ _) as [qValue times]. cbn [set_qTable qTable].
    by apply dict_get_set_ne.
Qed.

(** ** More on [computeReward] and [final] *)

Lemma py_max_nonempty (xs : list Z) : is_Some (py_max xs) → xs ≠ [].
Proof. destruct xs; [by intros [? ?]|done]. Qed.

(** X19: [largest_in_corner] returns exactly when the board has a row and
    no empty row; on any other board [max] raises, and with it
    [computeReward], whatever the start state. *)
Theorem largest_in_corner_returns_iff (s : GameState) :
  (is_Some (largest_in_corner (mkFeatures s)) ↔ rewardable s)
  ∧ (¬ rewardable s →
     ∀ startState, computeReward_float startState s = None).
Proof.
  assert (is_Some (largest_in_corner (mkFeatures s)) → rewardable s) as Hret.
  { intros [c Hc]. unfold largest_in_corner in Hc. cbn [state] in Hc.
    destruct (mapM py_max (board (fields s))) as [maxima|] eqn:Hmaxima;
      [|done].
    cbn [mbind option_bind] in Hc.
    destruct (py_max maxima) as [max_tile|] eqn:Hmax; [|done].
    apply mapM_Some in Hmaxima. split.
    - intros Hnil. rewrite Hnil in Hmaxima.
      apply Forall2_nil_inv_l in Hmaxima. by subst maxima.
    - apply Forall_forall. intros row Hrow.
      apply list_elem_of_lookup in Hrow as [i Hi].
      destruct (Forall2_lookup_l _ _ _ _ _ Hmaxima Hi) as (m & _ & Hm).
      apply py_max_nonempty. by eexists. }
  split; [split; [done|]|].
  - intros Hs. destruct (largest_in_corner_spec s Hs) as (c & -> & _).
    by eexists.
  - intros Hnot startState. unfold computeReward_float.
    destruct (largest_in_corner (mkFeatures s)) as [c|] eqn:Hc; [|done].
    exfalso. apply Hnot, Hret. by eexists.
Qed.

Lemma largest_in_corner_returns_iff_witness :
  ¬ rewardable state_no_rows
  ∧ largest_in_corner (mkFeatures state_no_rows) = None
  ∧ computeReward_float state_before state_no_rows = None.
Proof.
  assert (¬ rewardable state_no_rows) as Hnot by (by intros [Hne _]).
  split; [done|]. split; [done|].
  exact (proj2 (largest_in_corner_returns_iff state_no_rows) Hnot state_before).
Defined.

Lemma computeReward_monotone (startState end1 end2 : GameState)
    (exact1 exact2 : Q) :
  board (fields end1) = board (fields end2) →
  (get_score end1 < get_score end2)%Z →
  computeReward startState end1 = Some exact1 →
  computeReward startState end2 = Some exact2 →
  (exact1 < exact2)%Q.
Proof.
  intros Hboard Hscore.
  assert (largest_in_corner (mkFeatures end2)
          = largest_in_corner (mkFeatures end1)) as Hcorner.
  { unfold largest_in_corner. cbn [state]. by rewrite Hboard. }
  unfold computeReward. rewrite Hcorner, <- Hboard.
  destruct (largest_in_corner (mkFeatures end1)) as [c|]; [|done].
  cbn [mbind option_bind]. intros Hexact1 Hexact2.
  injection Hexact1 as <-. injection Hexact2 as <-.
  assert (inject_Z (get_score end1 - get_score startState)
          < inject_Z (get_score end2 - get_score startState))%Q as Hlt.
  { rewrite <- Zlt_Qlt. lia. }
  destruct c; lra.
Qed.

(** X20: between two end states with the same board, and scores within
    [exact_range], the one with the higher score earns the higher reward
    from the same start state. *)
Theorem reward_increases_with_score (startState end1 end2 : GameState) :
  rewardable end1 →
  board (fields end1) = board (fields end2) →
  exact_range startState end1 → exact_range startState end2 →
  (get_score end1 < get_score end2)%Z →
  ∃ reward1 reward2 value1 value2,
    computeReward_float startState end1 = Some reward1
    ∧ number_value reward1 = Some value1
    ∧ computeReward_float startState end2 = Some reward2
    ∧ number_value reward2 = Some value2
    ∧ (value1 < value2)%Q.
Proof.
  intros Hend Hboard Hrange1 Hrange2 Hscore.
  assert (rewardable end2) as Hend2.
  { unfold rewardable in *. by rewrite <- Hboard. }
  destruct (computeReward_total startState end1 Hend) as [exact1 Hexact1].
  destruct (computeReward_total startState end2 Hend2) as [exact2 Hexact2].
  pose proof (computeReward_float_exact startState end1 Hrange1) as Hfloat1.
  pose proof (computeReward_float_exact startState end2 Hrange2) as Hfloat2.
  rewrite Hexact1 in Hfloat1. rewrite Hexact2 in Hfloat2.
  destruct Hfloat1 as (reward1 & value1 & Hr1 & Hv1 & Heq1).
  destruct Hfloat2 as (reward2 & value2 & Hr2 & Hv2 & Heq2).
  exists reward1, reward2, value1, value2.
  split; [done|]. split; [done|]. split; [done|]. split; [done|].
  rewrite Heq1, Heq2.
  by apply (computeReward_monotone startState end1 end2).
Qed.

Lemma state_later_exact_range : exact_range state_before state_later.
Proof. split_and!; by vm_compute. Qed.

Lemma reward_increases_with_score_witness :
  rewardable state_after
  ∧ board (fields state_after) = board (fields state_later)
  ∧ exact_range state_before state_after
  ∧ exact_range state_before state_later
  ∧ (get_score state_after < get_score state_later)%Z
  ∧ ∃ reward1 reward2 value1 value2,
      computeReward_float state_before state_after = Some reward1
      ∧ number_value reward1 = Some value1
      ∧ computeReward_float state_before state_later = Some reward2
      ∧ number_value reward2 = Some value2
      ∧ (value1 < value2)%Q.
Proof.
  assert (get_score state_after < get_score state_later)%Z as Hscore
    by (vm_compute; reflexivity).
  split; [exact state_after_rewardable|]. split; [reflexivity|].
  split; [exact state_after_exact_range|].
  split; [exact state_later_exact_range|].
  split; [exact Hscore|].
  exact (reward_increases_with_score state_before state_after state_later
           state_after_rewardable eq_refl state_after_exact_range
           state_later_exact_range Hscore).
Defined.

(** Beyond the range the reward no longer tells scores apart. *)
Example reward_flat_beyond_2_53 :
  computeReward_float state_zero
    (GameState_init 18 [[4; 0]; [4; 2]]%Z (2 ^ 53) 2)
  = computeReward_float state_zero state_huge.
Proof. by vm_compute. Qed.




Example final_training_agent :
  final training_agent snapshot_c
  = Some (mkQLearnAgent (1 # 5) (1 # 20) (4 # 5) 30 5 1
            [((mkFeatures snapshot_a, MoveLeft), (350 # 125, 2))]
            [] [],
          [PrintLine "Game {} just ended!" [1%Z];
           PrintLine "Final score: {}" [4%Z]]).
Proof. vm_compute. reflexivity. Qed.

(** * Tile spawning and the start of a game *)

Lemma empty_cells_loop_filter (self : BoardState) (idxs : list (nat * nat)) :
  well_formed self →
  Forall (λ rc, rc.1 < dim self ∧ rc.2 < dim self) idxs →
  ∀ cells,
    for_each
      (λ cells rc,
         row ← board self !! rc.1;
         cell ← row !! rc.2;
         Some (if bool_decide (cell = 0%Z) then cells ++ [rc] else cells))
      cells idxs
    = Some (cells ++ filter (λ rc, cell (board self) rc.1 rc.2 = 0%Z) idxs).
Proof.
  intros [Hlen Hrows]. induction 1 as [|rc idxs [Hr Hc] _ IH]; intros cells.
  - simpl. by rewrite app_nil_r.
  - cbn [for_each].
    destruct (lookup_lt_is_Some_2 (board self) rc.1) as [row Hrow]; [lia|].
    rewrite Hrow. cbn [mbind option_bind].
    assert (length row = dim self) as Hrowlen
      by (rewrite Forall_forall in Hrows;
          eapply Hrows, list_elem_of_lookup_2, Hrow).
    destruct (lookup_lt_is_Some_2 row rc.2) as [v Hv]; [lia|].
    rewrite Hv. cbn [mbind option_bind]. rewrite IH, filter_cons.
    rewrite (cell_lookup _ _ _ _ _ Hrow Hv).
    case_bool_decide; case_decide; try done. by rewrite <- app_assoc.
Qed.

Lemma empty_cells_spec (self : BoardState) :
  well_formed self →
  empty_cells self
  = Some (filter (λ rc, cell (board self) rc.1 rc.2 = 0%Z)
                 (list_prod (range (dim self)) (range (dim self)))).
Proof.
  intros Hwf. unfold empty_cells.
  rewrite (empty_cells_loop_filter self _ Hwf); [done|].
  apply Forall_forall. intros [r c] Hin.
  apply list_elem_of_In, in_prod_iff in Hin as [Hr Hc].
  apply in_seq in Hr, Hc. simpl. lia.
Qed.

Lemma elem_of_index_pairs (d r c : nat) :
  (r, c) ∈ list_prod (range d) (range d) ↔ r < d ∧ c < d.
Proof.
  unfold range. rewrite list_elem_of_In, in_prod_iff, !in_seq. lia.
Qed.

Lemma cell_insert (b : list (list Z)) (r c i j : nat) (row : list Z) (v : Z) :
  b !! r = Some row → c < length row →
  cell (<[r := <[c := v]> row]> b) i j
  = if decide (i = r ∧ j = c) then v else cell b i j.
Proof.
  intros Hrow Hc. unfold cell. rewrite !(nth_lookup _ _ []).
  destruct (decide (i = r)) as [->|Hi].
  - rewrite list_lookup_insert_eq by by eapply lookup_lt_Some.
    rewrite Hrow. simpl. rewrite !nth_lookup.
    destruct (decide (j = c)) as [->|Hj].
    + rewrite list_lookup_insert_eq by done. by rewrite decide_True.
    + rewrite list_lookup_insert_ne by done. rewrite decide_False by tauto.
      done.
  - rewrite list_lookup_insert_ne by done. by rewrite decide_False by tauto.
Qed.

Lemma add_new_tile_cells (rnd : Random) (self : BoardState) :
  well_formed self →
  ∃ self',
    add_new_tile rnd self = Some self'
    ∧ well_formed self' ∧ dim self' = dim self ∧ score self' = score self
    ∧ ((self' = self
        ∧ ∀ r c, r < dim self → c < dim self → cell (board self) r c ≠ 0%Z)
       ∨ ∃ r c,
           r < dim self ∧ c < dim self ∧ cell (board self) r c = 0%Z
           ∧ ∀ i j, cell (board self') i j
                    = if decide (i = r ∧ j = c) then random_tile rnd
                      else cell (board self) i j).
Proof.
  intros Hwf.
  destruct (add_new_tile_well_formed rnd self Hwf)
    as (self' & Hadd & Hwf' & Hdim & Hscore).
  exists self'. split; [done|]. split; [done|]. split; [done|].
  split; [done|].
  unfold add_new_tile in Hadd. rewrite empty_cells_spec in Hadd by done.
  cbn [mbind option_bind] in Hadd.
  destruct (filter _ _) as [|rc0 cells] eqn:Hcells.
  - left. split; [by simplify_eq|]. intros r c Hr Hc Hzero.
    assert ((r, c) ∈ filter (λ rc, cell (board self) rc.1 rc.2 = 0%Z)
                       (list_prod (range (dim self)) (range (dim self))))
      as Hin by (apply list_elem_of_filter; by rewrite elem_of_index_pairs).
    rewrite Hcells in Hin. by apply elem_of_nil in Hin.
  - right.
    destruct (random_choice_elem (tile_index rnd) rc0 cells)
      as ([r c] & Hrc & Hin).
    rewrite Hrc in Hadd. cbn [mbind option_bind fst snd] in Hadd.
    rewrite <- Hcells in Hin.
    apply list_elem_of_filter in Hin as [Hzero [Hr Hc]%elem_of_index_pairs].
    simpl in Hzero. exists r, c.
    split; [done|]. split; [done|]. split; [done|].
    destruct Hwf as [Hlen Hrows].
    destruct (lookup_lt_is_Some_2 (board self) r) as [row Hrow]; [lia|].
    rewrite Hrow in Hadd. cbn [mbind option_bind] in Hadd. simplify_eq.
    intros i j. cbn [set_board board]. apply cell_insert; [done|].
    rewrite Forall_forall in Hrows.
    rewrite (Hrows row); [done|]. by eapply list_elem_of_lookup_2.
Qed.

Lemma random_tile_values (rnd : Random) :
  (random_tile rnd = 2 ∨ random_tile rnd = 4)%Z.
Proof. unfold random_tile. case_decide; [by left|by right]. Qed.

(** X22: on a well-formed board [add_new_tile] returns, and keeps the
    score, the dimension and the shape of the board. When no cell is empty
    it changes nothing; otherwise it writes a 2 or a 4 into one cell that was
    empty and leaves every other cell as it was. *)
Theorem add_new_tile_effect (rnd : Random) (self : BoardState) :
  well_formed self →
  ∃ self',
    add_new_tile rnd self = Some self'
    ∧ well_formed self' ∧ dim self' = dim self ∧ score self' = score self
    ∧ ((∀ r c, r < dim self → c < dim self → cell (board self) r c ≠ 0%Z) →
       self' = self)
    ∧ ((∃ r c, r < dim self ∧ c < dim self ∧ cell (board self) r c = 0%Z) →
       ∃ r c tile,
         r < dim self ∧ c < dim self ∧ cell (board self) r c = 0%Z
         ∧ (tile = 2 ∨ tile = 4)%Z
         ∧ ∀ i j, cell (board self') i j
                  = if decide (i = r ∧ j = c) then tile
                    else cell (board self) i j).
Proof.
  intros Hwf.
  destruct (add_new_tile_cells rnd self Hwf)
    as (self' & Hadd & Hwf' & Hdim & Hscore & Hcases).
  exists self'. split; [done|]. split; [done|]. split; [done|].
  split; [done|].
  destruct Hcases as [[-> Hfull]|(r & c & Hr & Hc & Hzero & Hcells)].
  - split; [done|]. intros (r & c & Hr & Hc & Hzero).
    exfalso. by apply (Hfull r c).
  - split.
    + intros Hfull. exfalso. by apply (Hfull r c).
    + intros _. exists r, c, (random_tile rnd).
      split_and!; [done..|apply random_tile_values|done].
Qed.

Lemma add_new_tile_effect_witness :
  well_formed game_2x2
  ∧ ∃ self',
      add_new_tile zero_draws game_2x2 = Some self'
      ∧ well_formed self' ∧ dim self' = dim game_2x2
      ∧ score self' = score game_2x2
      ∧ ((∀ r c, r < dim game_2x2 → c < dim game_2x2 →
                 cell (board game_2x2) r c ≠ 0%Z) →
         self' = game_2x2)
      ∧ ((∃ r c, r < dim game_2x2 ∧ c < dim game_2x2
                 ∧ cell (board game_2x2) r c = 0%Z) →
         ∃ r c tile,
           r < dim game_2x2 ∧ c < dim game_2x2
           ∧ cell (board game_2x2) r c = 0%Z
           ∧ (tile = 2 ∨ tile = 4)%Z
           ∧ ∀ i j, cell (board self') i j
                    = if decide (i = r ∧ j = c) then tile
                      else cell (board game_2x2) i j).
Proof.
  split; [exact game_2x2_well_formed|].
  exact (add_new_tile_effect zero_draws game_2x2 game_2x2_well_formed).
Defined.

Example add_new_tile_game_2x2 :
  add_new_tile zero_draws game_2x2
  = Some {| board := [[2; 2]; [4; 2]]%Z; score := 0; dim := 2 |}.
Proof. vm_compute. reflexivity. Qed.

Lemma cell_zeros (d i j : nat) : cell (replicate d (replicate d 0%Z)) i j = 0%Z.
Proof.
  unfold cell. rewrite (nth_lookup _ _ []).
  destruct (replicate d (replicate d 0%Z) !! i) as [row|] eqn:Hrow; simpl.
  - apply lookup_replicate in Hrow as [-> _]. rewrite nth_lookup.
    destruct (replicate d 0%Z !! j) as [v|] eqn:Hv; simpl; [|done].
    by apply lookup_replicate in Hv as [-> _].
  - by destruct j.
Qed.

(** X23: [Game(dim, goal, agent)] returns for every dimension, with a board
    of [dim] rows of [dim] cells, score 0, and at most two tiles on the
    board, each a 2 or a 4; [reset_game()] leaves the same as a new game of
    the same dimension, whatever the board and the score were. *)
Theorem new_game (d : nat) (rnd1 rnd2 : Random) :
  (∃ self,
     Game_init d rnd1 rnd2 = Some self
     ∧ well_formed self ∧ dim self = d ∧ score self = 0%Z
     ∧ ∃ r1 c1 r2 c2, ∀ i j,
         cell (board self) i j = 0%Z
         ∨ (((i = r1 ∧ j = c1) ∨ (i = r2 ∧ j = c2))
            ∧ (cell (board self) i j = 2 ∨ cell (board self) i j = 4)%Z))
  ∧ ∀ old : BoardState,
      dim old = d → reset_game rnd1 rnd2 old = Game_init d rnd1 rnd2.
Proof.
  split; [|by intros old <-].
  unfold Game_init, initialize_game.
  set (self0 := {| board := replicate d (replicate d 0%Z); score := 0%Z;
                   dim := d |}).
  assert (well_formed self0) as Hwf0.
  { split; cbn; [by rewrite length_replicate|].
    apply Forall_replicate. by rewrite length_replicate. }
  destruct (add_new_tile_cells rnd1 self0 Hwf0)
    as (self1 & -> & Hwf1 & Hd1 & Hs1 & Hcase1).
  cbn [mbind option_bind].
  destruct (add_new_tile_cells rnd2 self1 Hwf1)
    as (self2 & -> & Hwf2 & Hd2 & Hs2 & Hcase2).
  exists self2. split; [done|]. split; [done|].
  split; [by rewrite Hd2, Hd1|]. split; [by rewrite Hs2, Hs1|].
  assert (∃ r1 c1, ∀ i j,
    cell (board self1) i j = 0%Z
    ∨ ((i = r1 ∧ j = c1)
       ∧ (cell (board self1) i j = 2 ∨ cell (board self1) i j = 4)%Z))
    as (r1 & c1 & Hcells1).
  { destruct Hcase1 as [[-> _]|(r & c & _ & _ & _ & Hcells)].
    - exists 0, 0. intros i j. left. apply cell_zeros.
    - exists r, c. intros i j. rewrite Hcells.
      case_decide; [right|left; apply cell_zeros].
      split; [done|apply random_tile_values]. }
  destruct Hcase2 as [[-> _]|(r & c & _ & _ & _ & Hcells)].
  - exists r1, c1, r1, c1. intros i j.
    destruct (Hcells1 i j) as [?|[? ?]]; [by left|right; tauto].
  - exists r1, c1, r, c. intros i j. rewrite Hcells.
    case_decide.
    + right. split; [tauto|apply random_tile_values].
    + destruct (Hcells1 i j) as [?|[? ?]]; [by left|right; tauto].
Qed.

Example Game_init_4x4 :
  Game_init 4 zero_draws (mkRandom 0 0 3 95)
  = Some {| board := [[2; 0; 0; 0]; [4; 0; 0; 0]; [0; 0; 0; 0]; [0; 0; 0; 0]]%Z;
            score := 0; dim := 4 |}.
Proof. vm_compute. reflexivity. Qed.

(** * Whole sessions *)

Lemma check_game_over_same (self : BoardState) :
  well_formed self → ∃ over, check_game_over self = Some (over, self).
Proof.
  intros Hwf. unfold check_game_over.
  rewrite move_possible_exists by done. by eexists.
Qed.

Lemma play_body_keeps {A : Type} `{Agent A} (w w' : Session A) (rnd : Random)
    (continue : bool) :
  well_formed (game w) → play_body w rnd = Some (w', continue) →
  well_formed (game w') ∧ dim (game w') = dim (game w) ∧ goal w' = goal w
  ∧ next_id w' = S (next_id w) ∧ output w `prefix_of` output w'.
Proof.
  intros Hwf. unfold play_body.
  destruct (agent_get_move _ _ _) as [[[move_choice agent'] gs']|]; [|done].
  cbn [mbind option_bind]. unfold play_choice.
  cbn [game goal agent next_id output].
  destruct move_choice as [direction|].
  2:{ intros [= <- _]. cbn. split_and!; try done. by apply prefix_app_r. }
  destruct (move_method_well_formed direction true (game w) Hwf)
    as (moved & g & -> & Hg & Hdg).
  cbn [mbind option_bind]. destruct moved.
  - destruct (add_new_tile_well_formed rnd g Hg) as (g' & -> & Hg' & Hd & Hs).
    cbn [mbind option_bind].
    destruct (check_win _ _); intros [= <- _]; cbn;
      rewrite ?Hd, ?Hdg; split_and!; try done; by apply prefix_app_r.
  - intros [= <- _]. cbn. split_and!; try done. by apply prefix_app_r.
Qed.

(** X24: a session keeps its shape: when the loop of [play] returns on a
    game with a [dim] by [dim] board, whatever the agent answers, the board
    is still [dim] by [dim], the goal is unchanged, and everything printed
    before is still at the head of the output. *)
Theorem play_loop_keeps_shape {A : Type} `{Agent A} (rnds : list Random)
    (w w' : Session A) :
  well_formed (game w) → play_loop rnds w = Some w' →
  well_formed (game w') ∧ dim (game w') = dim (game w) ∧ goal w' = goal w
  ∧ next_id w ≤ next_id w' ∧ output w `prefix_of` output w'.
Proof.
  revert w. induction rnds as [|rnd rnds IH]; intros w Hwf; cbn [play_loop];
    destruct (check_game_over_same (game w) Hwf) as [over ->];
    cbn [mbind option_bind]; destruct over.
  - intros [= <-]. by destruct w.
  - done.
  - intros [= <-]. by destruct w.
  - cbn [game goal agent next_id output].
    assert (mkSession (game w) (goal w) (agent w) (next_id w) (output w) = w)
      as -> by by destruct w.
    destruct (play_body w rnd) as [[w1 continue]|] eqn:Hbody; [|done].
    cbn [mbind option_bind].
    destruct (play_body_keeps w w1 rnd continue Hwf Hbody)
      as (Hwf1 & Hd1 & Hg1 & Hn1 & Ho1).
    destruct continue.
    + intros Hrest. destruct (IH w1 Hwf1 Hrest) as (? & Hd & Hg & Hn & Ho).
      split; [done|]. split; [congruence|]. split; [congruence|].
      split; [lia|]. by etrans.
    + intros [= <-]. split_and!; try done. lia.
Qed.

Lemma play_loop_keeps_shape_witness :
  well_formed (game resigning_session)
  ∧ play_loop [zero_draws] resigning_session
    = Some (mkSession game_2x2 2048 mkResigningAgent 1
              [PrintLine no_valid_moves []])
  ∧ well_formed game_2x2 ∧ dim game_2x2 = dim (game resigning_session)
  ∧ (2048 = goal resigning_session)%Z
  ∧ next_id resigning_session ≤ 1
  ∧ output resigning_session `prefix_of` [PrintLine no_valid_moves []].
Proof.
  assert (play_loop [zero_draws] resigning_session
          = Some (mkSession game_2x2 2048 mkResigningAgent 1
                    [PrintLine no_valid_moves []])) as Hplay
    by (vm_compute; reflexivity).
  split; [exact game_2x2_well_formed|]. split; [exact Hplay|].
  exact (play_loop_keeps_shape [zero_draws] resigning_session _
           game_2x2_well_formed Hplay).
Defined.

(** X25: a turn in which the agent answers with a direction whose move
    changes the board applies that move to the live board with scoring,
    spawns one tile on the board the move leaves, and goes on to the next
    turn unless a cell has reached the goal, in which case the board and
    the congratulation are printed and the loop ends. *)
Theorem play_body_legal_move {A : Type} `{Agent A} (w : Session A)
    (rnd : Random) (direction : Move) (agent' : A) (gs' : GameState) :
  well_formed (game w) →
  agent_get_move (agent w)
    (GameState_init (next_id w) (board (game w)) (score (game w))
                    (dim (game w))) rnd
  = Some (Some direction, agent', gs') →
  changes_board direction (game w) →
  ∃ g,
    add_new_tile rnd
      {| board := move_board direction (dim (game w)) (board (game w));
         score := (score (game w) + move_gain direction (board (game w)))%Z;
         dim := dim (game w) |}
    = Some g
    ∧ play_body w rnd
      = Some (mkSession g (goal w) agent' (S (next_id w))
                (if check_win (goal w) g
                 then output w ++ [PrintBoard (board g);
                                   PrintLine congratulations []]
                 else output w),
              negb (check_win (goal w) g)).
Proof.
  intros Hwf Hmove Hch. unfold play_body. rewrite Hmove.
  cbn [mbind option_bind]. unfold play_choice.
  cbn [game goal agent next_id output].
  rewrite move_method_spec by done. cbn [mbind option_bind].
  rewrite bool_decide_true by by apply changes_board_spec.
  set (moved := {| board := move_board direction (dim (game w))
                              (board (game w));
                   score := (score (game w)
                             + move_gain direction (board (game w)))%Z;
                   dim := dim (game w) |}).
  assert (well_formed moved) as Hmoved by by apply move_board_square.
  destruct (add_new_tile_well_formed rnd moved Hmoved) as (g & Hg & _).
  exists g. split; [done|]. rewrite Hg. cbn [mbind option_bind].
  by destruct (check_win (goal w) g).
Qed.

Lemma play_body_legal_move_witness :
  well_formed (game random_session)
  ∧ agent_get_move (agent random_session)
      (GameState_init (next_id random_session) (board (game random_session))
         (score (game random_session)) (dim (game random_session)))
      zero_draws
    = Some (Some MoveLeft, mkRandomAgent,
            GameState_init 0 [[2; 2]; [4; 0]]%Z 0 2)
  ∧ changes_board MoveLeft (game random_session)
  ∧ ∃ g,
      add_new_tile zero_draws
        {| board := move_board MoveLeft (dim (game random_session))
                      (board (game random_session));
           score := (score (game random_session)
                     + move_gain MoveLeft (board (game random_session)))%Z;
           dim := dim (game random_session) |}
      = Some g
      ∧ play_body random_session zero_draws
        = Some (mkSession g (goal random_session) mkRandomAgent
                  (S (next_id random_session))
                  (if check_win (goal random_session) g
                   then output random_session
                        ++ [PrintBoard (board g);
                            PrintLine congratulations []]
                   else output random_session),
                negb (check_win (goal random_session) g)).
Proof.
  assert (agent_get_move (agent random_session)
            (GameState_init (next_id random_session)
               (board (game random_session)) (score (game random_session))
               (dim (game random_session))) zero_draws
          = Some (Some MoveLeft, mkRandomAgent,
                  GameState_init 0 [[2; 2]; [4; 0]]%Z 0 2)) as Hmove
    by (vm_compute; reflexivity).
  split; [exact game_2x2_well_formed|]. split; [exact Hmove|].
  split; [exact game_2x2_moves_left|].
  exact (play_body_legal_move random_session zero_draws MoveLeft
           mkRandomAgent _ game_2x2_well_formed Hmove game_2x2_moves_left).
Defined.

Example play_body_random_session :
  play_body random_session zero_draws
  = Some (mkSession {| board := [[4; 2]; [4; 0]]%Z; score := 4; dim := 2 |}
            2048 mkRandomAgent 1 [],
          true).
Proof. vm_compute. reflexivity. Qed.
